(** * js-collection: collections, transactions and the Select builder

    A shallow embedding of the classes MemoryCollection, Transaction and
    Select.  The collection a Transaction wraps and the collection a Select
    reads from are MemoryCollections; the SQL and key-value backends are not
    embedded.

    JavaScript objects are references.  The embedding keeps one store of
    record objects ([heap]), one of MemoryCollection instances ([colls]) and
    one of Transaction instances ([txs]); a reference is an index into its
    store, and allocation appends.  A method of the source becomes a function
    that takes the receiver's reference and the world and returns the new
    world with the result.  The values of the fields of a record are trees:
    sharing below the record itself is not represented.  [await] is
    sequential composition: the embedding follows one logical task and does
    not interleave others. *)

From stdpp Require Import base option list strings pretty gmap.

Open Scope string_scope.
Open Scope list_scope.
Open Scope nat_scope.
Set Warnings "-register-all".

(** ** Field values and plain objects *)

Inductive Value :=
| VNull
| VBool (b : bool)
| VNum (n : Z)
| VStr (s : string)
| VArr (l : list Value)
| VObj (o : list (string * Value)).

(** ** Insertion-ordered maps

    A JavaScript [Map] and the own properties of a plain object both iterate
    in insertion order; writing an existing key keeps its position. *)
Module JsMap.
Section Defs.
Context {K V : Type} `{EqDecision K}.

Fixpoint get (k : K) (m : list (K * V)) : option V :=
  match m with
  | [] => None
  | (k', v) :: m' => if decide (k = k') then Some v else get k m'
  end.

Fixpoint set (k : K) (v : V) (m : list (K * V)) : list (K * V) :=
  match m with
  | [] => [(k, v)]
  | (k', v') :: m' =>
      if decide (k = k') then (k, v) :: m' else (k', v') :: set k v m'
  end.

Fixpoint delete (k : K) (m : list (K * V)) : list (K * V) :=
  match m with
  | [] => []
  | (k', v') :: m' =>
      if decide (k = k') then m' else (k', v') :: delete k m'
  end.

Definition keys (m : list (K * V)) : list K := m.*1.
Definition values (m : list (K * V)) : list V := m.*2.
Definition entries (m : list (K * V)) : list (K * V) := m.
End Defs.
End JsMap.

Definition Obj := list (string * Value).

(** [Object.assign(target, source)]: every own property of [source], in
    order, is written to [target]. *)
Definition Object_assign (target source : Obj) : Obj :=
  fold_left (fun t kv => JsMap.set kv.1 kv.2 t) source target.

(** Modelled from the spec: [deepAssign] of @heraclius/js-tools is not part
    of the repository.  Following section 4.1, a field that is a mapping on
    both sides is merged key by key, recursively; every other field of the
    source (scalar or sequence) overwrites the target's.  The merge changes
    the target object in place: [update] drops what [deepAssign] returns and
    stores [oldData] itself again. *)
Fixpoint mergeValue (old : option Value) (new : Value) : Value :=
  match new with
  | VObj s =>
      match old with
      | Some (VObj d) =>
          VObj (fold_left
                  (fun d kv => JsMap.set kv.1 (mergeValue (JsMap.get kv.1 d) kv.2) d)
                  s d)
      | _ => new
      end
  | _ => new
  end.

Definition mergeFields (d s : Obj) : Obj :=
  fold_left (fun d kv => JsMap.set kv.1 (mergeValue (JsMap.get kv.1 d) kv.2) d) s d.

(** ** Records

    [QueryItem]: an object with an [_id] of type string, optional on the way
    into [save] ([{ _id?: string }]), and application fields. *)
Record Item := mkItem { _id : option string; fields : Obj }.

Definition deepAssign (oldData item : Item) : Item :=
  {| _id := match _id item with Some k => Some k | None => _id oldData end;
     fields := mergeFields (fields oldData) (fields item) |}.

(** [!item._id]: the id is undefined or the empty string. *)
Definition falsy (i : option string) : bool :=
  match i with
  | None => true
  | Some s => bool_decide (s = "")
  end.

(** The record as a plain object, [_id] being one of its properties. *)
Definition asObject (it : Item) : Obj :=
  match _id it with
  | Some k => JsMap.set "_id" (VStr k) (fields it)
  | None => fields it
  end.

(** ** Query conditions

    Modelled from the spec: [query] of @heraclius/query is not part of the
    repository; the spec treats it as an opaque [matches(item, condition)].
    The two shapes the repository itself builds are kept as constructors: the
    absent condition, which matches everything, and [{ _id: { $in: ids } }],
    which matches the records whose [_id] is one of [ids].  Every other
    condition is its predicate. *)
Inductive QueryCondition :=
| QAll
| QIdIn (ids : list (option string))
| QFn (f : Item -> bool).

Definition query (c : QueryCondition) (it : Item) : bool :=
  match c with
  | QAll => true
  | QIdIn ids => bool_decide (_id it ∈ ids)
  | QFn f => f it
  end.

(** ** The world *)

Definition loc := nat.
Definition cref := nat.
Definition tref := nat.
Definition timer := nat.

(** The closures pushed on [_rollbackFns], with what they capture. *)
Inductive RollbackFn :=
| RbSave (collection : cref) (result : list loc)
    (* () => collection.save(...result) *)
| RbDeleteIdsOf (collection : cref) (result : list loc).
    (* () => collection.delete({ _id: { $in: result.map(item => item._id) } }) *)

(** The fields of a MemoryCollection instance. *)
Module MC.
Record t := mk { name : string; _map : list (string * loc) }.
End MC.

(** The fields of a Transaction instance. *)
Module TX.
Record t := mk {
  id : string;
  collection : cref;
  _rollbackFns : list RollbackFn;
  _begin : bool;
  _timeoutHandler : option timer
}.
End TX.

(** What [map[id]] can be.  [map] is a plain object ([{}]), so besides the
    transactions stored in it a lookup finds what it inherits from
    [Object.prototype]: the members of [Object.prototype] ([__proto__] being
    [Object.prototype] itself) and whatever was assigned to a property of
    [Object.prototype] since. *)
Inductive Registered :=
| ATransaction (t : tref)
| ABuiltin (name : string)
| ACollection (c : cref).

#[global] Instance Registered_eq_dec : EqDecision Registered.
Proof. solve_decision. Defined.

(** The own property names of [Object.prototype]. *)
Definition Object_prototype_members : list string :=
  ["constructor"; "__defineGetter__"; "__defineSetter__"; "hasOwnProperty";
   "__lookupGetter__"; "__lookupSetter__"; "isPrototypeOf";
   "propertyIsEnumerable"; "toString"; "valueOf"; "__proto__";
   "toLocaleString"].

Inductive Error :=
| NotFound (id : option string)   (* "Not found item in collection by id " + id *)
| NotAFunction.                   (* TypeError: the callee is undefined *)

Record World := mkWorld {
  heap : list Item;
  colls : list MC.t;
  txs : list TX.t;
  (** [const map: Record<string, Transaction> = {}] *)
  registry : gmap string tref;
  (** the callbacks given to [setTimeout], each with the transaction it ends
      and its delay in milliseconds; [None] once cleared or fired *)
  timers : list (option (tref * Z));
  (** [v4()]: the n-th call returns [uuid_src n] *)
  uuid_src : nat -> string;
  uuid_next : nat;
  (** what [console.warn] printed, oldest first *)
  console : list string;
  (** the own [collection] property of the objects that are not transactions
      (members of [Object.prototype], collections), as [Transaction.get]
      assigned it.  Only the lookup [map[id]] reads it: the methods embedded
      here read own properties of records and of [Map]s, which a property
      left on [Object.prototype] does not change *)
  strays : list (Registered * cref)
}.

Definition empty_world (src : nat -> string) : World :=
  mkWorld [] [] [] ∅ [] src 0 [] [].

(** *** Reading and writing through references

    A reference held by JavaScript code always points to an object.  Reading
    a reference that was never allocated gives the value of a freshly
    constructed object, and writing to it does nothing, so that every
    operation is a total function. *)
Definition obj (w : World) (l : loc) : Item :=
  default (mkItem None []) (heap w !! l).
Definition coll (w : World) (c : cref) : MC.t :=
  default (MC.mk "memory" []) (colls w !! c).
Definition tx (w : World) (t : tref) : TX.t :=
  default (TX.mk "" 0 [] false None) (txs w !! t).

Definition set_heap (h : list Item) (w : World) : World :=
  mkWorld h (colls w) (txs w) (registry w) (timers w) (uuid_src w) (uuid_next w) (console w) (strays w).
Definition set_colls (cs : list MC.t) (w : World) : World :=
  mkWorld (heap w) cs (txs w) (registry w) (timers w) (uuid_src w) (uuid_next w) (console w) (strays w).
Definition set_txs (ts : list TX.t) (w : World) : World :=
  mkWorld (heap w) (colls w) ts (registry w) (timers w) (uuid_src w) (uuid_next w) (console w) (strays w).
Definition set_registry (r : gmap string tref) (w : World) : World :=
  mkWorld (heap w) (colls w) (txs w) r (timers w) (uuid_src w) (uuid_next w) (console w) (strays w).
Definition set_timers (ts : list (option (tref * Z))) (w : World) : World :=
  mkWorld (heap w) (colls w) (txs w) (registry w) ts (uuid_src w) (uuid_next w) (console w) (strays w).
Definition set_uuid_next (n : nat) (w : World) : World :=
  mkWorld (heap w) (colls w) (txs w) (registry w) (timers w) (uuid_src w) n (console w) (strays w).
Definition set_strays (st : list (Registered * cref)) (w : World) : World :=
  mkWorld (heap w) (colls w) (txs w) (registry w) (timers w) (uuid_src w) (uuid_next w)
    (console w) st.
Definition set_console (c : list string) (w : World) : World :=
  mkWorld (heap w) (colls w) (txs w) (registry w) (timers w) (uuid_src w) (uuid_next w) c (strays w).

Definition set_obj (l : loc) (it : Item) (w : World) : World :=
  set_heap (<[l := it]> (heap w)) w.
Definition set_map (c : cref) (m : list (string * loc)) (w : World) : World :=
  set_colls (<[c := MC.mk (MC.name (coll w c)) m]> (colls w)) w.
Definition set_tx (t : tref) (x : TX.t) (w : World) : World :=
  set_txs (<[t := x]> (txs w)) w.

(** An object literal: a new object, referenced by nothing else. *)
Definition alloc (it : Item) (w : World) : World * loc :=
  (set_heap (heap w ++ [it]) w, length (heap w)).

(** [v4()] of the uuid package: the next identifier of the source. *)
Definition v4 (w : World) : World * string :=
  (set_uuid_next (S (uuid_next w)) w, uuid_src w (uuid_next w)).

(** ** MemoryCollection *)
Module MemoryCollection.

(** [new MemoryCollection(name)] *)
Definition new (name : string) (w : World) : World * cref :=
  (set_colls (colls w ++ [MC.mk name []]) w, length (colls w)).

Definition search (this : cref) (condition : QueryCondition) (w : World) : list loc :=
  let fn := query condition in
  List.filter (fun item => fn (obj w item)) (JsMap.values (MC._map (coll w this))).

Definition searchOne (this : cref) (condition : QueryCondition) (w : World) : option loc :=
  let fn := query condition in
  List.find (fun item => fn (obj w item)) (JsMap.values (MC._map (coll w this))).

(** [this._map.delete(value._id)]; the keys are strings, so an undefined
    [_id] finds nothing to delete. *)
Definition map_delete (this : cref) (key : option string) (w : World) : World :=
  match key with
  | Some k => set_map this (JsMap.delete k (MC._map (coll w this))) w
  | None => w
  end.

Definition delete (this : cref) (condition : QueryCondition) (w : World)
  : World * list loc :=
  let result := search this condition w in
  (fold_left (fun w value => map_delete this (_id (obj w value)) w) result w,
   result).

Definition deleteById (this : cref) (id : string) (w : World) : World * bool :=
  match JsMap.get id (MC._map (coll w this)) with
  | Some _ => (set_map this (JsMap.delete id (MC._map (coll w this))) w, true)
  | None => (w, false)
  end.

Definition getById (this : cref) (id : string) (w : World) : option loc :=
  JsMap.get id (MC._map (coll w this)).

(** One turn of the loop of [save]: [if (!item._id) item._id = v4()], then
    [this._map.set(item._id, item)]. *)
Definition save1 (this : cref) (item : loc) (w : World) : World :=
  let '(w1, key) :=
    match _id (obj w item) with
    | Some k =>
        if bool_decide (k = "") then
          let '(w', u) := v4 w in
          (set_obj item (mkItem (Some u) (fields (obj w item))) w', u)
        else (w, k)
    | None =>
        let '(w', u) := v4 w in
        (set_obj item (mkItem (Some u) (fields (obj w item))) w', u)
    end in
  set_map this (JsMap.set key item (MC._map (coll w1 this))) w1.

Definition save (this : cref) (items : list loc) (w : World) : World * list loc :=
  (fold_left (fun w item => save1 this item w) items w, items).

(** The loop of [update].  A [throw] leaves the world as the turns before
    it made it. *)
Fixpoint update (this : cref) (items : list loc) (w : World)
  : World * (Error + unit) :=
  match items with
  | [] => (w, inr ())
  | item :: rest =>
      match _id (obj w item) with
      | Some k =>
          match JsMap.get k (MC._map (coll w this)) with
          | Some oldData =>
              let w1 := set_obj oldData (deepAssign (obj w oldData) (obj w item)) w in
              let w2 := set_map this (JsMap.set k oldData (MC._map (coll w1 this))) w1 in
              update this rest w2
          | None => (w, inl (NotFound (Some k)))
          end
      | None => (w, inl (NotFound None))
      end
  end.
End MemoryCollection.

(** ** Transaction *)
Module Transaction.

Definition set_begin (b : bool) (x : TX.t) : TX.t :=
  TX.mk (TX.id x) (TX.collection x) (TX._rollbackFns x) b (TX._timeoutHandler x).
Definition set_timeoutHandler (h : option timer) (x : TX.t) : TX.t :=
  TX.mk (TX.id x) (TX.collection x) (TX._rollbackFns x) (TX._begin x) h.
Definition set_collection (c : cref) (x : TX.t) : TX.t :=
  TX.mk (TX.id x) c (TX._rollbackFns x) (TX._begin x) (TX._timeoutHandler x).
Definition set_rollbackFns (fs : list RollbackFn) (x : TX.t) : TX.t :=
  TX.mk (TX.id x) (TX.collection x) fs (TX._begin x) (TX._timeoutHandler x).

(** [this._rollbackFns.push(f)] *)
Definition push (this : tref) (f : RollbackFn) (w : World) : World :=
  set_tx this (set_rollbackFns (TX._rollbackFns (tx w this) ++ [f]) (tx w this)) w.

(** [setTimeout(cb, delay)], [cb] being the callback of [begin] for [this] *)
Definition setTimeout (this : tref) (delay : Z) (w : World) : World * timer :=
  (set_timers (timers w ++ [Some (this, delay)]) w, length (timers w)).

Definition clearTimeout (h : option timer) (w : World) : World :=
  match h with
  | Some h => set_timers (<[h := None]> (timers w)) w
  | None => w
  end.

Definition begin (this : tref) (w : World) : World :=
  match TX._timeoutHandler (tx w this) with
  | Some _ => w
  | None =>
      let w1 := set_tx this (set_begin true (tx w this)) w in
      let '(w2, h) := setTimeout this 30000 w1 in
      set_tx this (set_timeoutHandler (Some h) (tx w2 this)) w2
  end.

Definition end_ (this : tref) (w : World) : World :=
  let w1 := set_tx this (set_begin false (tx w this)) w in
  let w2 := set_registry (base.delete (TX.id (tx w1 this)) (registry w1)) w1 in
  let w3 := clearTimeout (TX._timeoutHandler (tx w2 this)) w2 in
  set_tx this (set_timeoutHandler None (tx w3 this)) w3.

(** [new Transaction(id, collection)] *)
Definition new (id : string) (collection : cref) (w : World) : World * tref :=
  let this := length (txs w) in
  let w1 := set_txs (txs w ++ [TX.mk id collection [] false None]) w in
  (begin this w1, this).

(** [map[id]]: an own property of [map] first, then what [map] inherits
    from [Object.prototype]; the only property this code ever assigns on
    [Object.prototype] is [collection] (by [get("__proto__", c)]). *)
Definition lookup (id : string) (w : World) : option Registered :=
  match registry w !! id with
  | Some transaction => Some (ATransaction transaction)
  | None =>
      if bool_decide (id ∈ Object_prototype_members) then Some (ABuiltin id)
      else if bool_decide (id = "collection")
           then ACollection <$> JsMap.get (ABuiltin "__proto__") (strays w)
           else None
  end.

(** [transaction.collection = collection], on whatever [transaction] is. *)
Definition assign_collection (transaction : Registered) (collection : cref)
    (w : World) : World :=
  match transaction with
  | ATransaction t => set_tx t (set_collection collection (tx w t)) w
  | _ => set_strays (JsMap.set transaction collection (strays w)) w
  end.

Definition get (id : string) (collection : cref) (w : World) : World * Registered :=
  let '(w1, transaction) :=
    match lookup id w with
    | Some transaction => (w, transaction)
    | None =>
        let '(w1, transaction) := new id collection w in
        (set_registry (<[id := transaction]> (registry w1)) w1,
         ATransaction transaction)
    end in
  (assign_collection transaction collection w1, transaction).

(** The runtime runs the callback of timer [h], if it is still pending:
    [this.end()], then the warning. *)
Definition fire (h : timer) (w : World) : World :=
  match timers w !! h with
  | Some (Some (this, _)) =>
      let w1 := set_timers (<[h := None]> (timers w)) w in
      let w2 := end_ this w1 in
      set_console
        (console w2 ++ [("Transaction[" ++ TX.id (tx w2 this) ++ "]超时自动关闭")%string]) w2
  | _ => w
  end.

(** Calling a logged closure. *)
Definition call (f : RollbackFn) (w : World) : World :=
  match f with
  | RbSave collection result => (MemoryCollection.save collection result w).1
  | RbDeleteIdsOf collection result =>
      (MemoryCollection.delete collection
         (QIdIn (map (fun item => _id (obj w item)) result)) w).1
  end.

(** [for (let i = n - 1; i >= 0; i--) await this._rollbackFns[i]()] *)
Fixpoint rollback_loop (this : tref) (n : nat) (w : World) : World * (Error + unit) :=
  match n with
  | 0 => (w, inr ())
  | S i =>
      match TX._rollbackFns (tx w this) !! i with
      | Some f => rollback_loop this i (call f w)
      | None => (w, inl NotAFunction)
      end
  end.

Definition rollback (this : tref) (w : World) : World * (Error + unit) :=
  match rollback_loop this (length (TX._rollbackFns (tx w this))) w with
  | (w1, inr _) =>
      let w2 := set_tx this (set_rollbackFns [] (tx w1 this)) w1 in
      (end_ this w2, inr ())
  | (w1, inl e) => (w1, inl e)
  end.

(** [result.length && this._begin] *)
Definition logging (this : tref) (result : list loc) (w : World) : bool :=
  (0 <? length result)%nat && TX._begin (tx w this).

Definition delete (this : tref) (condition : QueryCondition) (w : World)
  : World * list loc :=
  let collection := TX.collection (tx w this) in
  let '(w1, result) := MemoryCollection.delete collection condition w in
  (if logging this result w1 then push this (RbSave collection result) w1 else w1,
   result).

Definition deleteById (this : tref) (id : string) (w : World) : World * bool :=
  let collection := TX.collection (tx w this) in
  match MemoryCollection.getById collection id w with
  | Some data =>
      let w1 := if TX._begin (tx w this)
                then push this (RbSave collection [data]) w else w in
      MemoryCollection.deleteById collection id w1
  | None => (w, true)
  end.

Definition getById (this : tref) (id : string) (w : World) : option loc :=
  MemoryCollection.getById (TX.collection (tx w this)) id w.

Definition save (this : tref) (items : list loc) (w : World) : World * list loc :=
  let collection := TX.collection (tx w this) in
  let '(w1, result) := MemoryCollection.save collection items w in
  (if logging this result w1
   then push this (RbDeleteIdsOf collection result) w1 else w1,
   result).

Definition search (this : tref) (condition : QueryCondition) (w : World) : list loc :=
  MemoryCollection.search (TX.collection (tx w this)) condition w.

Definition searchOne (this : tref) (condition : QueryCondition) (w : World)
  : option loc :=
  MemoryCollection.searchOne (TX.collection (tx w this)) condition w.

Definition update (this : tref) (items : list loc) (w : World)
  : World * (Error + unit) :=
  let collection := TX.collection (tx w this) in
  let result :=
    MemoryCollection.search collection
      (QIdIn (map (fun item => _id (obj w item)) items)) w in
  match MemoryCollection.update collection items w with
  | (w1, inr _) =>
      (if logging this result w1
       then push this (RbSave collection result) w1 else w1,
       inr ())
  | (w1, inl e) => (w1, inl e)
  end.
End Transaction.

(** ** Select *)
Module Select.

(** What a join callback resolves to: one record or a sequence of them. *)
Inductive Fetched :=
| One (v : Item)
| Many (vs : list Item).

(** [(item: FromValue) => Promise<V | V[]>]: the callback gets the source
    record and may use the world. *)
Definition JoinCB := loc -> World -> World * Fetched.
(** [(value: V | V[]) => Partial<Result>] *)
Definition ExposeCB := Fetched -> Obj.

Record t := mk {
  _from : cref;
  _condition : QueryCondition;
  _joinMap : list (cref * JoinCB);
  _exposeMap : list (cref * ExposeCB)
}.

(** The own enumerable properties of an array are its indices. *)
Fixpoint indexed (i : nat) (vs : list Item) : Obj :=
  match vs with
  | [] => []
  | v :: vs' => (pretty i, VObj (asObject v)) :: indexed (S i) vs'
  end.

(** [(value) => value as any], read as the object [Object.assign] copies
    from. *)
Definition identity : ExposeCB := fun value =>
  match value with
  | One v => asObject v
  | Many vs => indexed 0 vs
  end.

Definition expose (this : t) (collection : cref) (cb : ExposeCB) : t :=
  mk (_from this) (_condition this) (_joinMap this)
     (JsMap.set collection cb (_exposeMap this)).

Definition from (fromCollection : cref) : t :=
  expose (mk fromCollection QAll [] []) fromCollection identity.

Definition where_ (this : t) (condition : QueryCondition) : t :=
  mk (_from this) condition (_joinMap this) (_exposeMap this).

Definition join (this : t) (collection : cref) (cb : JoinCB) : t :=
  mk (_from this) (_condition this)
     (JsMap.set collection cb (_joinMap this))
     (JsMap.set collection identity (_exposeMap this)).

(** [this._exposeMap.get(collection)?.(value)]; an undefined result gives
    [Object.assign] nothing to copy. *)
Definition exposed (this : t) (collection : cref) (value : Fetched) : Obj :=
  match JsMap.get collection (_exposeMap this) with
  | Some cb => cb value
  | None => []
  end.

Definition _handleFromValue (this : t) (item : loc) (w : World) : World * Obj :=
  let result := Object_assign [] (exposed this (_from this) (One (obj w item))) in
  fold_left
    (fun (acc : World * Obj) (entry : cref * JoinCB) =>
       let '(w, result) := acc in
       let '(joinCollection, joinCB) := entry in
       let '(w1, value) := joinCB item w in
       let exposedValue := exposed this joinCollection value in
       (w1, Object_assign result exposedValue))
    (JsMap.entries (_joinMap this)) (w, result).

Definition toOne (this : t) (w : World) : World * option Obj :=
  match MemoryCollection.searchOne (_from this) (_condition this) w with
  | None => (w, None)
  | Some fromValue =>
      let '(w1, result) := _handleFromValue this fromValue w in
      (w1, Some result)
  end.

Definition toArray (this : t) (w : World) : World * list Obj :=
  let array := MemoryCollection.search (_from this) (_condition this) w in
  fold_left
    (fun (acc : World * list Obj) item =>
       let '(w, resultArray) := acc in
       let '(w1, r) := _handleFromValue this item w in
       (w1, (resultArray ++ [r])%list))
    array (w, []).
End Select.

(** ** The scenarios of the test suite *)
Module Scenario.
Definition src (n : nat) : string := "uuid-" ++ pretty n.

Definition john := mkItem (Some "1") [("name", VStr "John"); ("age", VNum 30)].
Definition jane := mkItem (Some "2") [("name", VStr "Jane"); ("age", VNum 25)].
Definition alice := mkItem None [("name", VStr "Alice"); ("age", VNum 28)].
Definition johnny := mkItem (Some "1") [("name", VStr "Johnny"); ("age", VNum 31)].

Definition hasName (n : string) : QueryCondition :=
  QFn (fun it =>
         match JsMap.get "name" (fields it) with
         | Some (VStr s) => bool_decide (s = n)
         | _ => false
         end).

(** [beforeEach]: a collection and a transaction on it. *)
Definition w0 : World :=
  let '(w, c) := MemoryCollection.new "test" (empty_world src) in
  (Transaction.new "1" c w).1.

(** The records a collection holds, in iteration order. *)
Definition records (c : cref) (w : World) : list Item :=
  map (obj w) (MemoryCollection.search c QAll w).
End Scenario.

(** ** Further scenarios *)

Module Rollback.
Import Scenario.

(** [collection.save(item1)], as in "rollback after update". *)
Definition stored : World * loc :=
  let '(w, item1) := alloc john w0 in
  ((MemoryCollection.save 0 [item1] w).1, item1).

(** [transaction.update({ _id: "1", name: "Johnny", age: 31 })] *)
Definition updated : World :=
  let '(w, patch) := alloc johnny stored.1 in
  (Transaction.update 0 [patch] w).1.

Definition update_rolled_back : World := (Transaction.rollback 0 updated).1.

(** [transaction.save({ _id: "1", name: "Johnny", age: 31 })] *)
Definition saved_over : World :=
  let '(w, item) := alloc johnny stored.1 in
  (Transaction.save 0 [item] w).1.

Definition save_rolled_back : World := (Transaction.rollback 0 saved_over).1.

(** John is stored under "1"; a patch for the id "9". *)
Definition patched : World * loc :=
  alloc (mkItem (Some "9") [("name", VStr "Nobody")]) stored.1.

(** John is stored under "1"; Alice without an [_id] and Johnny with the
    [_id] "1" are about to be saved. *)
Definition incoming : World := (alloc johnny (alloc alice stored.1).1).1.
End Rollback.

Module Registry.
Import Scenario.

(** Two collections; the transaction "t1" got for the first, with one save
    logged. *)
Definition two_collections : World :=
  (MemoryCollection.new "b" w0).1.

Definition t1_on_a : World :=
  let w := (Transaction.get "t1" 0 two_collections).1 in
  let '(w, a) := alloc alice w in
  (Transaction.save 1 [a] w).1.
End Registry.

(** The users and posts of the tests of Select. *)
Module Blog.
Definition alice1 := mkItem (Some "1") [("name", VStr "Alice")].
Definition bob2 := mkItem (Some "2") [("name", VStr "Bob")].
Definition post1 := mkItem (Some "1") [("title", VStr "Post 1"); ("userId", VStr "1")].
Definition post2 := mkItem (Some "2") [("title", VStr "Post 2"); ("userId", VStr "1")].

Definition blog : World :=
  let '(w, users) := MemoryCollection.new "user" (empty_world Scenario.src) in
  let '(w, posts) := MemoryCollection.new "post" w in
  let '(w, u1) := alloc alice1 w in
  let '(w, u2) := alloc bob2 w in
  let '(w, p1) := alloc post1 w in
  let '(w, p2) := alloc post2 w in
  let w := (MemoryCollection.save users [u1; u2] w).1 in
  (MemoryCollection.save posts [p1; p2] w).1.

(** [posts.search({ userId: user._id })] *)
Definition postsOf : Select.JoinCB := fun user w =>
  let byUser := QFn (fun p =>
    match JsMap.get "userId" (fields p), _id (obj w user) with
    | Some (VStr u), Some k => bool_decide (u = k)
    | _, _ => false
    end) in
  (w, Select.Many (map (obj w) (MemoryCollection.search 1 byUser w))).

(** [(posts) => ({ posts })] *)
Definition exposePosts : Select.ExposeCB := fun value =>
  match value with
  | Select.Many ps => [("posts", VArr (map (fun p => VObj (asObject p)) ps))]
  | Select.One p => [("posts", VObj (asObject p))]
  end.

Definition usersWithPosts : Select.t :=
  Select.expose (Select.join (Select.from 0) 1 postsOf) 1 exposePosts.

(** A condition no user meets. *)
Definition nobody : Select.t :=
  Select.where_ usersWithPosts (QIdIn [Some "zzz"]).
End Blog.

(** The collection of "rollback after delete" and worlds made from it. *)
Module Stored.
Import Scenario.

(** [collection.save(item1, item2)]: John under "1", Jane under "2". *)
Definition two : World :=
  let '(w, item1) := alloc john w0 in
  let '(w, item2) := alloc jane w in
  (MemoryCollection.save 0 [item1; item2] w).1.

(** Two patches are at hand: one for "1", one for the id "9". *)
Definition patches : World :=
  (alloc (mkItem (Some "9") [("name", VStr "Nobody")]) (alloc johnny two).1).1.

(** The transaction of [beforeEach], ended. *)
Definition ended_tx : World := Transaction.end_ 0 two.

(** A second transaction with the id "1", this one from [Transaction.get]. *)
Definition namesakes : World := (Transaction.get "1" 0 w0).1.
End Stored.

(** ** Vocabulary of the statements *)

(** The transaction object after [end()]. *)
Definition ended (x : TX.t) : TX.t :=
  TX.mk (TX.id x) (TX.collection x) (TX._rollbackFns x) false None.

(** The transactions, the registry, the timers and the console of two worlds
    agree. *)
Definition same_control (w w' : World) : Prop :=
  txs w' = txs w ∧ registry w' = registry w ∧ timers w' = timers w
  ∧ console w' = console w ∧ uuid_src w' = uuid_src w.

(** The records, the collections and the uuid source of two worlds agree. *)
Definition same_data (w w' : World) : Prop :=
  heap w' = heap w ∧ colls w' = colls w
  ∧ uuid_src w' = uuid_src w ∧ uuid_next w' = uuid_next w.

(** The data model's invariant: a record is stored under its own [_id]. *)
Definition keyed (c : cref) (w : World) : Prop :=
  forall k l, JsMap.get k (MC._map (coll w c)) = Some l -> _id (obj w l) = Some k.

(** The item targets no stored record. *)
Definition missing (c : cref) (w : World) (item : loc) : Prop :=
  match _id (obj w item) with
  | Some k => JsMap.get k (MC._map (coll w c)) = None
  | None => True
  end.

(** The key a record is stored under: its [_id], once it has one. *)
Definition idOf (w : World) (l : loc) : string := default "" (_id (obj w l)).

(** [toOne] as section 4.2 of the specification words it. *)
Module SelectSpec.
Import Select.

(** The steps of section 4.2, written as a recursion over the joined
    collections from the first registered to the last: fetch with the
    source record, project, merge into the result. *)
Fixpoint merge_joins (this : t) (source : loc) (joins : list (cref * JoinCB))
    (w : World) (result : Obj) : World * Obj :=
  match joins with
  | [] => (w, result)
  | (joined, fetch) :: rest =>
      let '(w1, fetched) := fetch source w in
      merge_joins this source rest w1
        (Object_assign result (exposed this joined fetched))
  end.

Definition toOne (this : t) (w : World) : World * option Obj :=
  match MemoryCollection.searchOne (_from this) (_condition this) w with
  | None => (w, None)
  | Some source =>
      let start := Object_assign [] (exposed this (_from this) (One (obj w source))) in
      let '(w1, result) := merge_joins this source (_joinMap this) w start in
      (w1, Some result)
  end.
End SelectSpec.

(** A sequence of [save] calls on one transaction. *)
Definition saves (this : tref) (batches : list (list loc)) (w : World) : World :=
  fold_left (fun w items => (Transaction.save this items w).1) batches w.

Definition nonempty (items : list loc) : bool := 0 <? length items.

(** The entries the saves appended to the map of the collection. *)
Definition added (c : cref) (orig : list (string * loc)) (all : list loc)
    (w : World) (new : list (string * loc)) : Prop :=
  MC._map (coll w c) = orig ++ new
  ∧ NoDup (JsMap.keys new)
  ∧ forall k l, (k, l) ∈ new -> _id (obj w l) = Some k ∧ k ≠ "" ∧ l ∈ all.

(** What holds between the saves: the original entries are in place, and
    the ids still to come are not among their keys. *)
Record Inv (c : cref) (orig : list (string * loc)) (all : list loc)
    (w : World) : Prop := {
  inv_c : c < length (colls w);
  inv_heap : forall item, item ∈ all -> item < length (heap w);
  inv_map : exists new, added c orig all w new;
  inv_ids : forall item k,
    item ∈ all -> _id (obj w item) = Some k -> k ≠ "" -> k ∉ JsMap.keys orig;
  inv_uuid : forall n,
    uuid_next w ≤ n -> uuid_src w n ≠ "" ∧ uuid_src w n ∉ JsMap.keys orig;
  inv_alias : forall item,
    item ∈ all -> falsy (_id (obj w item)) = true -> item ∉ JsMap.values orig
}.

(** The invariant of a collection: every record is stored under its own,
    non-empty [_id], and no key occurs twice. *)
Definition well_keyed (c : cref) (w : World) : Prop :=
  keyed c w
  ∧ NoDup (JsMap.keys (MC._map (coll w c)))
  ∧ "" ∉ JsMap.keys (MC._map (coll w c)).

(** [this._map.delete(key)] on the map alone. *)
Definition odelete (key : option string) (m : list (string * loc)) : list (string * loc) :=
  match key with
  | Some k => JsMap.delete k m
  | None => m
  end.

(** The stored objects the items of an update target. *)
Definition targeted (c : cref) (w : World) (items : list loc) (l : loc) : Prop :=
  exists item k, item ∈ items ∧ _id (obj w item) = Some k
                 ∧ JsMap.get k (MC._map (coll w c)) = Some l.

(** The records, collections and uuid source of [w] with the transactions,
    registry, timers and console of [x]. *)
Definition with_control (x w : World) : World :=
  mkWorld (heap w) (colls w) (txs x) (registry x) (timers x)
    (uuid_src w) (uuid_next w) (console x) (strays x).

(** * Properties *)

(** ** Reading after writing *)
Section Frames.
Implicit Types (w : World) (l : loc) (c : cref) (t : tref).

Lemma tx_set_tx_eq w t x : t < length (txs w) -> tx (set_tx t x w) t = x.
Proof.
  intros Hlt. unfold tx, set_tx. simpl.
  by rewrite list_lookup_insert_eq.
Qed.

Lemma tx_set_tx_ne w t t' x : t ≠ t' -> tx (set_tx t x w) t' = tx w t'.
Proof.
  intros Hne. unfold tx, set_tx. simpl.
  by rewrite list_lookup_insert_ne.
Qed.

Lemma set_tx_dangling w t x : length (txs w) ≤ t -> set_tx t x w = w.
Proof.
  intros Hge. unfold set_tx. rewrite list_insert_ge by done. by destruct w.
Qed.

Lemma coll_set_map_eq w c m :
  c < length (colls w) -> MC._map (coll (set_map c m w) c) = m.
Proof.
  intros Hlt. unfold coll, set_map. simpl.
  by rewrite list_lookup_insert_eq.
Qed.

Lemma coll_set_map_ne w c c' m : c ≠ c' -> coll (set_map c m w) c' = coll w c'.
Proof.
  intros Hne. unfold coll, set_map. simpl.
  by rewrite list_lookup_insert_ne.
Qed.

Lemma set_map_dangling w c m : length (colls w) ≤ c -> set_map c m w = w.
Proof.
  intros Hge. unfold set_map. rewrite list_insert_ge by done. by destruct w.
Qed.

Lemma obj_set_obj_eq w l it : l < length (heap w) -> obj (set_obj l it w) l = it.
Proof.
  intros Hlt. unfold obj, set_obj. simpl.
  by rewrite list_lookup_insert_eq.
Qed.

Lemma obj_set_obj_ne w l l' it : l ≠ l' -> obj (set_obj l it w) l' = obj w l'.
Proof.
  intros Hne. unfold obj, set_obj. simpl.
  by rewrite list_lookup_insert_ne.
Qed.

Lemma tx_lookup w t x : txs w !! t = Some x -> tx w t = x.
Proof. intros H. unfold tx. by rewrite H. Qed.

Lemma tx_dangling w t : length (txs w) ≤ t -> tx w t = TX.mk "" 0 [] false None.
Proof. intros H. unfold tx. by rewrite lookup_ge_None_2. Qed.
End Frames.

(** ** Transaction.end *)

Arguments Transaction.end_ : simpl never.

Lemma end_world (this : tref) (w : World) :
  Transaction.end_ this w =
  mkWorld (heap w) (colls w)
    (<[this := ended (tx w this)]> (txs w))
    (base.delete (TX.id (tx w this)) (registry w))
    (match TX._timeoutHandler (tx w this) with
     | Some h => <[h := None]> (timers w)
     | None => timers w
     end)
    (uuid_src w) (uuid_next w) (console w) (strays w).
Proof.
  destruct w as [h cs ts r tm us un co st].
  unfold Transaction.end_, Transaction.clearTimeout, set_tx, set_registry,
    set_timers, set_txs, tx, ended. simpl.
  destruct (ts !! this) as [x|] eqn:E.
  - pose proof (lookup_lt_Some _ _ _ E) as Hlt.
    rewrite !list_lookup_insert_eq by done. simpl.
    destruct (TX._timeoutHandler x); simpl;
      rewrite ?list_lookup_insert_eq by (rewrite ?length_insert; done); simpl;
      rewrite list_insert_insert_eq; done.
  - pose proof (lookup_ge_None_1 _ _ E) as Hge.
    rewrite !(list_insert_ge ts) by done. rewrite ?E. simpl.
    rewrite ?(list_insert_ge ts) by done. rewrite ?E. done.
Qed.

Lemma tx_after_end (this : tref) (w : World) :
  tx (Transaction.end_ this w) this = ended (tx w this).
Proof.
  rewrite end_world. unfold tx. simpl.
  destruct (decide (this < length (txs w))) as [Hlt|Hge].
  - by rewrite list_lookup_insert_eq.
  - apply Nat.nlt_ge in Hge. rewrite list_insert_ge by done.
    by rewrite lookup_ge_None_2.
Qed.

(** C7.  [end()] makes the transaction inactive, deletes the entry of the
    registry under the transaction's id, clears the timer and forgets its
    handle.  The undo log, the id and the wrapped collection of the
    transaction, every other transaction, the records, the collections, the
    uuid source and the console are as before. *)
Theorem end_frame (this : tref) (w : World) :
  let x := tx w this in
  let w' := Transaction.end_ this w in
  txs w' =
    <[this := TX.mk (TX.id x) (TX.collection x) (TX._rollbackFns x) false None]> (txs w)
  ∧ TX._begin (tx w' this) = false
  ∧ TX._timeoutHandler (tx w' this) = None
  ∧ TX._rollbackFns (tx w' this) = TX._rollbackFns x
  ∧ registry w' = base.delete (TX.id x) (registry w)
  ∧ timers w' = match TX._timeoutHandler x with
                | Some h => <[h := None]> (timers w)
                | None => timers w
                end
  ∧ heap w' = heap w ∧ colls w' = colls w
  ∧ uuid_src w' = uuid_src w ∧ uuid_next w' = uuid_next w
  ∧ console w' = console w ∧ strays w' = strays w.
Proof.
  intros x w'. subst x w'. rewrite tx_after_end.
  rewrite end_world. simpl. done.
Qed.

(** ** What the collection operations leave alone

    The operations of MemoryCollection touch the records, the collections
    and the uuid counter; the transactions, the registry, the timers and the
    console are out of their reach. *)

Lemma same_control_refl w : same_control w w.
Proof. by repeat split. Qed.

Lemma same_control_trans w1 w2 w3 :
  same_control w1 w2 -> same_control w2 w3 -> same_control w1 w3.
Proof.
  intros (?&?&?&?&?) (?&?&?&?&?). repeat split; congruence.
Qed.

Lemma same_control_tx w w' t : same_control w w' -> tx w' t = tx w t.
Proof. intros (H&_). unfold tx. by rewrite H. Qed.

Lemma same_control_fold {A} (f : World -> A -> World) (l : list A) w :
  (forall w a, same_control w (f w a)) ->
  same_control w (fold_left f l w).
Proof.
  intros Hf. revert w. induction l as [|a l IH]; intros w; simpl.
  - apply same_control_refl.
  - eapply same_control_trans; [apply Hf | apply IH].
Qed.

Lemma save1_control c item w : same_control w (MemoryCollection.save1 c item w).
Proof.
  unfold MemoryCollection.save1, v4.
  destruct (_id (obj w item)) as [k|]; [destruct (bool_decide (k = ""))|];
    by repeat split.
Qed.

Lemma save_control c items w : same_control w (MemoryCollection.save c items w).1.
Proof. apply same_control_fold. intros; apply save1_control. Qed.

Lemma map_delete_control c key w :
  same_control w (MemoryCollection.map_delete c key w).
Proof. destruct key; by repeat split. Qed.

Lemma delete_control c cond w : same_control w (MemoryCollection.delete c cond w).1.
Proof. apply same_control_fold. intros; apply map_delete_control. Qed.

Lemma deleteById_control c id w :
  same_control w (MemoryCollection.deleteById c id w).1.
Proof.
  unfold MemoryCollection.deleteById.
  destruct (JsMap.get _ _); by repeat split.
Qed.

Lemma update_control c items w : same_control w (MemoryCollection.update c items w).1.
Proof.
  revert w. induction items as [|item rest IH]; intros w; simpl.
  - apply same_control_refl.
  - destruct (_id (obj w item)) as [k|]; [|apply same_control_refl].
    destruct (JsMap.get k _) as [old|]; [|apply same_control_refl].
    eapply same_control_trans; [|apply IH]. by repeat split.
Qed.

Lemma call_control f w : same_control w (Transaction.call f w).
Proof. destruct f; [apply save_control | apply delete_control]. Qed.

(** ** Transaction.rollback *)

(** The loop at index [n] has the closures [n-1], ..., [0] left to call; it
    calls them in that order and never finds a hole in the array. *)
Lemma rollback_loop_spec this n w :
  n ≤ length (TX._rollbackFns (tx w this)) ->
  Transaction.rollback_loop this n w =
    (fold_left (fun w f => Transaction.call f w)
       (rev (take n (TX._rollbackFns (tx w this)))) w, inr ()).
Proof.
  revert w. induction n as [|i IH]; intros w Hn.
  - by rewrite take_0.
  - simpl. destruct (TX._rollbackFns (tx w this) !! i) as [f|] eqn:Hf.
    2:{ apply lookup_ge_None_1 in Hf. lia. }
    rewrite (take_S_r _ _ _ Hf), rev_app_distr. simpl.
    pose proof (same_control_tx _ _ this (call_control f w)) as Htx.
    rewrite IH by (rewrite Htx; lia). by rewrite Htx.
Qed.

Lemma rollback_unfold (this : tref) (w : World) :
  let w1 := fold_left (fun w f => Transaction.call f w)
              (rev (TX._rollbackFns (tx w this))) w in
  Transaction.rollback this w =
    (Transaction.end_ this
       (set_tx this (Transaction.set_rollbackFns [] (tx w1 this)) w1), inr ()).
Proof.
  intros w1. unfold Transaction.rollback. rewrite rollback_loop_spec by done.
  by rewrite firstn_all.
Qed.

(** C4.  [rollback()] calls the logged closures from the most recent to the
    oldest, each on the world the one before it left, and does not fail;
    then it empties the log and calls [end()].  Afterwards the log is empty,
    the transaction is inactive with no timer, and the registry has no entry
    under the transaction's id. *)
Theorem rollback_reverse_order (this : tref) (w : World) :
  let log := TX._rollbackFns (tx w this) in
  let w1 := fold_left (fun w f => Transaction.call f w) (rev log) w in
  let w' := (Transaction.rollback this w).1 in
  Transaction.rollback this w =
    (Transaction.end_ this
       (set_tx this (Transaction.set_rollbackFns [] (tx w1 this)) w1), inr ())
  ∧ heap w' = heap w1 ∧ colls w' = colls w1
  ∧ TX._rollbackFns (tx w' this) = []
  ∧ TX._begin (tx w' this) = false
  ∧ TX._timeoutHandler (tx w' this) = None
  ∧ registry w' !! TX.id (tx w this) = None.
Proof.
  intros log w1 w'.
  assert (Hr : Transaction.rollback this w =
    (Transaction.end_ this
       (set_tx this (Transaction.set_rollbackFns [] (tx w1 this)) w1), inr ())).
  { apply rollback_unfold. }
  split; [done|]. subst w'. rewrite Hr. cbn [fst].
  assert (Hc : same_control w w1).
  { subst w1. apply same_control_fold. intros; apply call_control. }
  pose proof (same_control_tx _ _ this Hc) as Htx.
  set (w2 := set_tx this (Transaction.set_rollbackFns [] (tx w1 this)) w1).
  assert (H2 : tx w2 this = Transaction.set_rollbackFns [] (tx w this)).
  { subst w2. rewrite Htx.
    destruct (decide (this < length (txs w1))) as [Hlt|Hge].
    - by rewrite tx_set_tx_eq.
    - apply Nat.nlt_ge in Hge. rewrite set_tx_dangling by done. rewrite Htx.
      destruct Hc as (Hc&_). rewrite Hc in Hge. by rewrite tx_dangling. }
  rewrite tx_after_end, H2. rewrite end_world. simpl.
  split_and!; try done.
  rewrite H2. simpl. apply lookup_delete_eq.
Qed.

(** ** Transaction.get and the constructor *)

Lemma lookup_snoc_last {A} (l : list A) (x : A) : (l ++ [x]) !! length l = Some x.
Proof. by apply list_lookup_middle. Qed.

Lemma insert_snoc_last {A} (l : list A) (x y : A) :
  <[length l := y]> (l ++ [x]) = l ++ [y].
Proof.
  replace (length l) with (length l + 0) by lia. by rewrite insert_app_r.
Qed.

(** [new Transaction(id, collection)] allocates the object and begins it: it
    is active, its log is empty, and a 30 second timer is armed for it. *)
Lemma new_world id c w :
  Transaction.new id c w =
  (mkWorld (heap w) (colls w)
     (txs w ++ [TX.mk id c [] true (Some (length (timers w)))])
     (registry w)
     (timers w ++ [Some (length (txs w), 30000%Z)])
     (uuid_src w) (uuid_next w) (console w) (strays w),
   length (txs w)).
Proof.
  destruct w as [h cs ts r tm us un co st].
  unfold Transaction.new, Transaction.begin, Transaction.setTimeout,
    set_tx, set_txs, set_timers, tx. simpl.
  rewrite lookup_snoc_last. simpl.
  rewrite insert_snoc_last, lookup_snoc_last. simpl.
  by rewrite insert_snoc_last.
Qed.

Lemma lookup_registered id w t :
  registry w !! id = Some t -> Transaction.lookup id w = Some (ATransaction t).
Proof. intros Hreg. unfold Transaction.lookup. by rewrite Hreg. Qed.

Lemma lookup_builtin id w :
  registry w !! id = None -> id ∈ Object_prototype_members ->
  Transaction.lookup id w = Some (ABuiltin id).
Proof.
  intros Hreg Hin. unfold Transaction.lookup. rewrite Hreg.
  by rewrite bool_decide_eq_true_2.
Qed.

(** A lookup finds a transaction only in [map] itself. *)
Lemma lookup_transaction id w t :
  Transaction.lookup id w = Some (ATransaction t) -> registry w !! id = Some t.
Proof.
  unfold Transaction.lookup. destruct (registry w !! id) as [t'|]; [by intros [= ->]|].
  repeat case_bool_decide; try done.
  by destruct (JsMap.get _ _).
Qed.

Lemma lookup_None_registry id w :
  Transaction.lookup id w = None -> registry w !! id = None.
Proof. unfold Transaction.lookup. by destruct (registry w !! id). Qed.

Lemma get_found id c w r :
  Transaction.lookup id w = Some r ->
  Transaction.get id c w = (Transaction.assign_collection r c w, r).
Proof. intros Hl. unfold Transaction.get. by rewrite Hl. Qed.

Lemma get_new id c w :
  Transaction.lookup id w = None ->
  Transaction.get id c w =
  (mkWorld (heap w) (colls w)
     (txs w ++ [TX.mk id c [] true (Some (length (timers w)))])
     (<[id := length (txs w)]> (registry w))
     (timers w ++ [Some (length (txs w), 30000%Z)])
     (uuid_src w) (uuid_next w) (console w) (strays w),
   ATransaction (length (txs w))).
Proof.
  intros Hl. unfold Transaction.get. rewrite Hl, new_world.
  unfold Transaction.assign_collection, set_tx, set_txs, set_registry, tx. simpl.
  rewrite lookup_snoc_last. simpl. by rewrite insert_snoc_last.
Qed.

Lemma get_registered id c w t :
  registry w !! id = Some t ->
  Transaction.get id c w =
  (set_tx t (Transaction.set_collection c (tx w t)) w, ATransaction t).
Proof. intros Hreg. by rewrite (get_found _ _ _ _ (lookup_registered _ _ _ Hreg)). Qed.

(** [Transaction.get(id, collection)] for the ids that [map] does not
    inherit.  When a transaction is registered under [id], that very
    instance is returned, its [collection] now the one supplied, its undo
    log, active flag and timer as they were, and nothing else changes.  When
    the lookup finds nothing, a new instance is made, begun (active, empty
    log, a 30 second timer armed) and registered under [id]. *)
Theorem get_registered_or_new (id : string) (c : cref) (w : World) :
  (forall t x, registry w !! id = Some t -> txs w !! t = Some x ->
     exists w', Transaction.get id c w = (w', ATransaction t)
       ∧ txs w' = <[t := TX.mk (TX.id x) c (TX._rollbackFns x) (TX._begin x)
                            (TX._timeoutHandler x)]> (txs w)
       ∧ TX.collection (tx w' t) = c
       ∧ TX._rollbackFns (tx w' t) = TX._rollbackFns (tx w t)
       ∧ TX._begin (tx w' t) = TX._begin (tx w t)
       ∧ TX._timeoutHandler (tx w' t) = TX._timeoutHandler (tx w t)
       ∧ registry w' = registry w ∧ timers w' = timers w
       ∧ heap w' = heap w ∧ colls w' = colls w)
  ∧ (Transaction.lookup id w = None ->
     exists w', Transaction.get id c w = (w', ATransaction (length (txs w)))
       ∧ txs w' = txs w ++ [TX.mk id c [] true (Some (length (timers w)))]
       ∧ tx w' (length (txs w)) = TX.mk id c [] true (Some (length (timers w)))
       ∧ registry w' = <[id := length (txs w)]> (registry w)
       ∧ timers w' = timers w ++ [Some (length (txs w), 30000%Z)]
       ∧ heap w' = heap w ∧ colls w' = colls w).
Proof.
  split.
  - intros t x Hreg Hx. eexists. split; [by apply get_registered|].
    pose proof (lookup_lt_Some _ _ _ Hx) as Hlt.
    rewrite tx_set_tx_eq by done. rewrite (tx_lookup _ _ _ Hx).
    by destruct x.
  - intros Hreg. eexists. split; [by apply get_new|]. simpl.
    split_and!; try done.
    unfold tx. simpl. by rewrite lookup_snoc_last.
Qed.

(** C6.  [Transaction.get(id, collection)] for an id that names a member of
    [Object.prototype] ("constructor", "toString", "__proto__", ...) and has
    no transaction in [map]: [map[id]] is the inherited member, so the call
    returns that member, with [collection] assigned on it; no transaction is
    constructed, begun or registered, and no timer is armed. *)
Theorem get_inherited_id (id : string) (c : cref) (w : World) :
  id ∈ Object_prototype_members -> registry w !! id = None ->
  Transaction.get id c w
  = (set_strays (JsMap.set (ABuiltin id) c (strays w)) w, ABuiltin id)
  ∧ txs (Transaction.get id c w).1 = txs w
  ∧ registry (Transaction.get id c w).1 !! id = None
  ∧ timers (Transaction.get id c w).1 = timers w.
Proof.
  intros Hin Hreg.
  rewrite (get_found _ _ _ _ (lookup_builtin _ _ Hreg Hin)). by split_and!.
Qed.

(** ** The inactivity timer *)

(** [begin()] on a transaction without a timer arms one of 30000 ms. *)
Lemma begin_arms this w :
  this < length (txs w) ->
  TX._timeoutHandler (tx w this) = None ->
  let w' := Transaction.begin this w in
  TX._timeoutHandler (tx w' this) = Some (length (timers w))
  ∧ TX._begin (tx w' this) = true
  ∧ timers w' !! length (timers w) = Some (Some (this, 30000%Z)).
Proof.
  intros Hlt Hh w'. subst w'. unfold Transaction.begin. rewrite Hh.
  unfold Transaction.setTimeout.
  set (w1 := set_tx this (Transaction.set_begin true (tx w this)) w).
  assert (H1 : tx w1 this = Transaction.set_begin true (tx w this))
    by (by apply tx_set_tx_eq).
  set (w2 := set_timers _ w1).
  assert (H2 : tx w2 this = tx w1 this) by done.
  assert (Hlt2 : this < length (txs w2)).
  { subst w2 w1. unfold set_tx. simpl. by rewrite length_insert. }
  rewrite tx_set_tx_eq by done. simpl.
  split_and!; [done | by rewrite H2, H1 | apply lookup_snoc_last].
Qed.

(** C5.  When the timer of a transaction fires, [end()] runs and a warning
    is printed.  No logged compensation is called: the records and the
    collections are as they were.  The transaction is inactive, its timer is
    gone and the registry has no entry under its id.  Its log is not
    discarded: it stays on the transaction, exactly as it was. *)
Theorem timeout_ends_without_rollback
    (h : timer) (this : tref) (delay : Z) (w : World) :
  timers w !! h = Some (Some (this, delay)) ->
  let w' := Transaction.fire h w in
  heap w' = heap w ∧ colls w' = colls w
  ∧ TX._rollbackFns (tx w' this) = TX._rollbackFns (tx w this)
  ∧ TX._begin (tx w' this) = false
  ∧ TX._timeoutHandler (tx w' this) = None
  ∧ registry w' !! TX.id (tx w this) = None
  ∧ timers w' !! h = Some None
  ∧ console w' =
      console w ++ [("Transaction[" ++ TX.id (tx w this) ++ "]超时自动关闭")%string]
  ∧ uuid_next w' = uuid_next w ∧ strays w' = strays w.
Proof.
  intros Hh w'. subst w'. unfold Transaction.fire. rewrite Hh.
  set (w1 := set_timers (<[h := None]> (timers w)) w).
  assert (H1 : tx w1 this = tx w this) by done.
  set (w2 := Transaction.end_ this w1).
  assert (H2 : tx w2 this = ended (tx w this)).
  { subst w2. by rewrite tx_after_end, H1. }
  assert (Hreg : registry w2 !! TX.id (tx w this) = None).
  { subst w2. rewrite end_world, H1. simpl. apply lookup_delete_eq. }
  assert (Hheap : heap w2 = heap w ∧ colls w2 = colls w ∧ console w2 = console w
                  ∧ uuid_next w2 = uuid_next w ∧ strays w2 = strays w).
  { subst w2. rewrite end_world. by simpl. }
  destruct Hheap as (Hhp & Hcs & Hco & Hun & Hst).
  set (w3 := set_console _ w2).
  assert (H3 : tx w3 this = tx w2 this) by done.
  assert (Htm : timers w3 !! h = Some None).
  { change (timers w3) with (timers w2). subst w2.
    rewrite end_world, H1. cbn [timers].
    pose proof (lookup_lt_Some _ _ _ Hh) as Hhlt.
    change (timers w1) with (<[h := None]> (timers w)).
    destruct (TX._timeoutHandler (tx w this)) as [h'|].
    - destruct (decide (h' = h)) as [->|Hne].
      + rewrite list_insert_insert_eq. by apply list_lookup_insert_eq.
      + rewrite list_lookup_insert_ne by done. by apply list_lookup_insert_eq.
    - by apply list_lookup_insert_eq. }
  rewrite H3, H2.
  split_and!; [exact Hhp | exact Hcs | done | done | done | exact Hreg | exact Htm
              | | exact Hun | exact Hst].
  change (console w3) with
    (console w2 ++ [("Transaction[" ++ TX.id (tx w2 this) ++ "]超时自动关闭")%string]).
  by rewrite Hco, H2.
Qed.

(** The timeout does not discard the log (C5 as worded in the
    specification).  A save is logged and the timer fires: the log is still
    on the transaction, and a [rollback()] now still calls it and empties
    the collection. *)
Lemma timeout_log_not_discarded :
  timers Rollback.saved_over !! 0 = Some (Some (0, 30000%Z))
  ∧ TX._rollbackFns (tx (Transaction.fire 0 Rollback.saved_over) 0) ≠ []
  ∧ Scenario.records 0 (Transaction.fire 0 Rollback.saved_over) = [Scenario.johnny]
  ∧ Scenario.records 0
      (Transaction.rollback 0 (Transaction.fire 0 Rollback.saved_over)).1 = []
  ∧ ¬ (TX._rollbackFns (tx (Transaction.fire 0 Rollback.saved_over) 0) = []
       ∨ Scenario.records 0
           (Transaction.rollback 0 (Transaction.fire 0 Rollback.saved_over)).1
         = Scenario.records 0 (Transaction.fire 0 Rollback.saved_over)).
Proof.
  vm_compute. split_and!; try done. by intros [?|?].
Qed.

(** ** Insertion-ordered maps: reading after writing *)
Section JsMapFacts.
Context {K V : Type} `{EqDecision K}.
Implicit Types (m : list (K * V)) (k : K) (v : V).

Lemma get_set_eq m k v : JsMap.get k (JsMap.set k v m) = Some v.
Proof.
  induction m as [|[k' v'] m IH]; simpl.
  - by rewrite decide_True.
  - destruct (decide (k = k')) as [->|Hne]; simpl.
    + by rewrite decide_True.
    + by rewrite decide_False.
Qed.

Lemma get_set_ne m k k' v : k ≠ k' -> JsMap.get k' (JsMap.set k v m) = JsMap.get k' m.
Proof.
  intros Hne. induction m as [|[k1 v1] m IH]; simpl.
  - by rewrite decide_False.
  - destruct (decide (k = k1)) as [->|Hne1]; simpl.
    + by rewrite !decide_False.
    + destruct (decide (k' = k1)); done.
Qed.

Lemma set_same m k v : JsMap.get k m = Some v -> JsMap.set k v m = m.
Proof.
  induction m as [|[k' v'] m IH]; simpl; [done|].
  destruct (decide (k = k')) as [->|Hne].
  - by intros [= ->].
  - intros Hg. by rewrite IH.
Qed.

Lemma get_None_keys m k : JsMap.get k m = None <-> k ∉ JsMap.keys m.
Proof.
  unfold JsMap.keys. induction m as [|[k' v'] m IH]; simpl.
  - split; [intros _; apply not_elem_of_nil | done].
  - rewrite not_elem_of_cons. destruct (decide (k = k')) as [->|Hne].
    + split; [done | intros [? _]; done].
    + rewrite IH. tauto.
Qed.

Lemma get_Some_elem m k v : JsMap.get k m = Some v -> (k, v) ∈ m.
Proof.
  induction m as [|[k' v'] m IH]; simpl; [done|].
  destruct (decide (k = k')) as [->|Hne].
  - intros [= ->]. apply list_elem_of_here.
  - intros Hg. apply list_elem_of_further. auto.
Qed.

Lemma delete_absent m k : k ∉ JsMap.keys m -> JsMap.delete k m = m.
Proof.
  unfold JsMap.keys. induction m as [|[k' v'] m IH]; simpl; [done|].
  rewrite not_elem_of_cons. intros [Hne Hnotin].
  rewrite decide_False by done. by rewrite IH.
Qed.
End JsMapFacts.

(** ** deleteById on an id without a record *)

Lemma M_deleteById_missing c id w :
  MemoryCollection.getById c id w = None ->
  MemoryCollection.deleteById c id w = (w, false).
Proof.
  unfold MemoryCollection.getById, MemoryCollection.deleteById.
  by intros ->.
Qed.

(** C3.  For an id without a record, [deleteById] of the backend returns
    false and [deleteById] of the transaction returns true; either way the
    world is untouched, so the collection is as it was and nothing was pushed
    on the undo log. *)
Theorem deleteById_missing (this : tref) (id : string) (w : World) :
  MemoryCollection.getById (TX.collection (tx w this)) id w = None ->
  MemoryCollection.deleteById (TX.collection (tx w this)) id w = (w, false)
  ∧ Transaction.deleteById this id w = (w, true).
Proof.
  intros Hg. split; [by apply M_deleteById_missing|].
  unfold Transaction.deleteById. by rewrite Hg.
Qed.

(** ** update on an id without a record *)

Lemma set_map_same c w :
  set_map c (MC._map (coll w c)) w = w.
Proof.
  unfold set_map, coll.
  destruct (colls w !! c) as [mc|] eqn:E; simpl.
  - rewrite list_insert_id; [by destruct w | by destruct mc].
  - apply lookup_ge_None_1 in E. rewrite list_insert_ge by done. by destruct w.
Qed.

Lemma id_set_obj_same w old it l :
  _id it = _id (obj w old) -> _id (obj (set_obj old it w) l) = _id (obj w l).
Proof.
  intros Hid. destruct (decide (old = l)) as [<-|Hne].
  - destruct (decide (old < length (heap w))) as [Hlt|Hge].
    + by rewrite obj_set_obj_eq.
    + apply Nat.nlt_ge in Hge. unfold set_obj.
      rewrite list_insert_ge by done. by destruct w.
  - by rewrite obj_set_obj_ne.
Qed.

Lemma M_update_not_found c items w :
  keyed c w ->
  (exists item, item ∈ items ∧ missing c w item) ->
  exists w' item,
    item ∈ items ∧ missing c w item
    ∧ MemoryCollection.update c items w = (w', inl (NotFound (_id (obj w item))))
    ∧ colls w' = colls w.
Proof.
  revert w. induction items as [|item rest IH]; intros w Hk (bad & Hin & Hbad).
  { by apply elem_of_nil in Hin. }
  simpl. destruct (_id (obj w item)) as [k|] eqn:Hid.
  2:{ exists w, item. unfold missing. rewrite Hid.
      split_and!; [apply list_elem_of_here | done | done | done]. }
  destruct (JsMap.get k (MC._map (coll w c))) as [old|] eqn:Hget.
  2:{ exists w, item. unfold missing. rewrite Hid.
      split_and!; [apply list_elem_of_here | done | done | done]. }
  set (w1 := set_obj old (deepAssign (obj w old) (obj w item)) w).
  assert (Hids : forall l, _id (obj w1 l) = _id (obj w l)).
  { intros l. apply id_set_obj_same. simpl. rewrite Hid. symmetry. by apply Hk. }
  assert (Hc1 : coll w1 c = coll w c) by done.
  rewrite Hc1, (set_same _ _ _ Hget), <- Hc1, set_map_same.
  assert (Hk1 : keyed c w1).
  { intros k' l'. rewrite Hc1, Hids. apply Hk. }
  assert (Hbad1 : bad ∈ rest ∧ missing c w1 bad).
  { assert (Hm1 : missing c w1 bad).
    { unfold missing in *. by rewrite Hids, Hc1. }
    split; [|done].
    apply elem_of_cons in Hin as [->|Hin]; [|done].
    unfold missing in Hbad. rewrite Hid, Hget in Hbad. done. }
  destruct (IH w1 Hk1 (ex_intro _ bad Hbad1)) as (w' & it & Hin' & Hm' & Hup & Hcs).
  exists w', it. rewrite Hup, <- Hids.
  split_and!; [by apply list_elem_of_further | | done | done].
  unfold missing in *. by rewrite <- Hids, <- Hc1.
Qed.

(** C8.  When some item of an [update] targets an id without a record, the
    backend's [update] throws "not found" for such an item, the transaction's
    [update] lets the same error through to the caller, and the undo log is
    as it was before the call. *)
Theorem update_missing_id_fails (this : tref) (items : list loc) (w : World) :
  keyed (TX.collection (tx w this)) w ->
  (exists item, item ∈ items ∧ missing (TX.collection (tx w this)) w item) ->
  exists w' item,
    item ∈ items ∧ missing (TX.collection (tx w this)) w item
    ∧ MemoryCollection.update (TX.collection (tx w this)) items w =
        (w', inl (NotFound (_id (obj w item))))
    ∧ Transaction.update this items w = (w', inl (NotFound (_id (obj w item))))
    ∧ txs w' = txs w
    ∧ TX._rollbackFns (tx w' this) = TX._rollbackFns (tx w this).
Proof.
  intros Hk Hbad.
  destruct (M_update_not_found _ _ _ Hk Hbad) as (w' & item & Hin & Hm & Hup & _).
  exists w', item.
  pose proof (update_control (TX.collection (tx w this)) items w) as Hc.
  rewrite Hup in Hc. simpl in Hc.
  split_and!; try done.
  - unfold Transaction.update. by rewrite Hup.
  - by destruct Hc.
  - by rewrite (same_control_tx _ _ this Hc).
Qed.

(** ** MemoryCollection.save *)

(** [save] in the two cases of [!item._id]. *)
Lemma save1_truthy c item w :
  falsy (_id (obj w item)) = false ->
  MemoryCollection.save1 c item w =
    set_map c (JsMap.set (idOf w item) item (MC._map (coll w c))) w.
Proof.
  unfold MemoryCollection.save1, idOf, falsy.
  destruct (_id (obj w item)) as [k|]; [|done].
  by intros ->.
Qed.

Lemma save1_falsy c item w :
  falsy (_id (obj w item)) = true ->
  MemoryCollection.save1 c item w =
    let u := uuid_src w (uuid_next w) in
    let w1 := set_obj item (mkItem (Some u) (fields (obj w item)))
                (set_uuid_next (S (uuid_next w)) w) in
    set_map c (JsMap.set u item (MC._map (coll w c))) w1.
Proof.
  unfold MemoryCollection.save1, falsy, v4.
  destruct (_id (obj w item)) as [k|]; [|done].
  by intros ->.
Qed.

Lemma obj_set_map c m w l : obj (set_map c m w) l = obj w l.
Proof. done. Qed.

Lemma save1_obj_stable c item w l :
  l ≠ item ∨ falsy (_id (obj w l)) = false ->
  obj (MemoryCollection.save1 c item w) l = obj w l.
Proof.
  intros Hl. destruct (falsy (_id (obj w item))) eqn:Hf.
  - rewrite save1_falsy by done. cbv zeta. rewrite obj_set_map.
    destruct Hl as [Hne|Ht].
    + by rewrite obj_set_obj_ne.
    + destruct (decide (item = l)) as [->|Hne]; [congruence|].
      by rewrite obj_set_obj_ne.
  - by rewrite save1_truthy.
Qed.

Lemma save_obj_stable c items w l :
  l ∉ items ∨ falsy (_id (obj w l)) = false ->
  obj (MemoryCollection.save c items w).1 l = obj w l.
Proof.
  unfold MemoryCollection.save. cbn [fst].
  revert w. induction items as [|item rest IH]; intros w Hl; [done|].
  simpl. rewrite IH.
  - apply save1_obj_stable. destruct Hl as [Hl|Hl]; [|by right].
    left. intros ->. apply Hl, list_elem_of_here.
  - destruct Hl as [Hl|Hl].
    + left. intros Hin. apply Hl. by apply list_elem_of_further.
    + right. rewrite save1_obj_stable; [done | by right].
Qed.

Lemma save1_sizes c item w :
  let w1 := MemoryCollection.save1 c item w in
  length (heap w1) = length (heap w) ∧ length (colls w1) = length (colls w)
  ∧ uuid_next w ≤ uuid_next w1.
Proof.
  intros w1. subst w1. destruct (falsy (_id (obj w item))) eqn:Hf.
  - rewrite save1_falsy by done. simpl. rewrite !length_insert. lia.
  - rewrite save1_truthy by done. simpl. rewrite !length_insert. lia.
Qed.

Lemma save_sizes c items w :
  let w' := (MemoryCollection.save c items w).1 in
  length (heap w') = length (heap w) ∧ length (colls w') = length (colls w)
  ∧ uuid_next w ≤ uuid_next w'.
Proof.
  unfold MemoryCollection.save. cbn [fst].
  revert w. induction items as [|item rest IH]; intros w; simpl; [lia|].
  destruct (IH (MemoryCollection.save1 c item w)) as (?&?&?).
  destruct (save1_sizes c item w) as (?&?&?). lia.
Qed.

(** One turn of the loop: the item has an [_id] afterwards and is what the
    map holds under it. *)
Lemma save1_spec c item w :
  c < length (colls w) -> item < length (heap w) ->
  uuid_src w (uuid_next w) ≠ "" ->
  let w1 := MemoryCollection.save1 c item w in
  falsy (_id (obj w1 item)) = false
  ∧ fields (obj w1 item) = fields (obj w item)
  ∧ MC._map (coll w1 c) = JsMap.set (idOf w1 item) item (MC._map (coll w c))
  ∧ (falsy (_id (obj w item)) = true ->
       _id (obj w1 item) = Some (uuid_src w (uuid_next w))
       ∧ uuid_next w1 = S (uuid_next w)).
Proof.
  intros Hc Hl Hu w1. subst w1. destruct (falsy (_id (obj w item))) eqn:Hf.
  - rewrite save1_falsy by done. cbv zeta.
    rewrite coll_set_map_eq by done. rewrite obj_set_map.
    unfold idOf. rewrite obj_set_map. rewrite obj_set_obj_eq by done.
    simpl. rewrite bool_decide_eq_false_2 by done. done.
  - rewrite save1_truthy by done.
    rewrite coll_set_map_eq by done. rewrite obj_set_map.
    unfold idOf. rewrite obj_set_map. done.
Qed.

(** C10.  [save] returns its arguments, in order.  The map afterwards is the
    map before with every argument stored under its [_id], in order, the
    object itself taking the place of whatever the map held there: nothing
    of a previous record is kept.  Every argument has a non-empty [_id]
    afterwards and the fields it came with; one that came with an [_id] is
    untouched, one that came without got an identifier that [v4()] returned
    during this call.  Objects that are not arguments are untouched. *)
Theorem save_upsert (c : cref) (items : list loc) (w : World) :
  c < length (colls w) ->
  (forall item, item ∈ items -> item < length (heap w)) ->
  (forall n, uuid_src w n ≠ "") ->
  let w' := (MemoryCollection.save c items w).1 in
  (MemoryCollection.save c items w).2 = items
  ∧ MC._map (coll w' c) =
      fold_left (fun m item => JsMap.set (idOf w' item) item m) items
        (MC._map (coll w c))
  ∧ (forall item, item ∈ items ->
       falsy (_id (obj w' item)) = false
       ∧ fields (obj w' item) = fields (obj w item)
       ∧ (falsy (_id (obj w item)) = false -> obj w' item = obj w item)
       ∧ (falsy (_id (obj w item)) = true ->
            exists n, uuid_next w ≤ n < uuid_next w'
                      ∧ _id (obj w' item) = Some (uuid_src w n)))
  ∧ (forall l, l ∉ items -> obj w' l = obj w l).
Proof.
  intros Hc Hl Hu w'. subst w'.
  split; [done|].
  split; [|split; [|by intros l Hnin; apply save_obj_stable; left]].
  - revert w Hc Hl Hu. induction items as [|item rest IH]; intros w Hc Hl Hu; [done|].
    set (w1 := MemoryCollection.save1 c item w).
    change (MemoryCollection.save c (item :: rest) w).1
      with (MemoryCollection.save c rest w1).1.
    destruct (save1_sizes c item w) as (Hh1 & Hc1 & _). fold w1 in Hh1, Hc1.
    destruct (save1_control c item w) as (_&_&_&_&Hsrc). fold w1 in Hsrc.
    destruct (save1_spec c item w) as (Ht & _ & Hm & _);
      [done | apply Hl, list_elem_of_here | done |]. fold w1 in Ht, Hm.
    rewrite IH.
    + cbn [fold_left]. rewrite Hm. f_equal. f_equal.
      unfold idOf. rewrite save_obj_stable; [done | by right].
    + by rewrite Hc1.
    + intros it Hin. rewrite Hh1. by apply Hl, list_elem_of_further.
    + intros n. by rewrite Hsrc.
  - revert w Hc Hl Hu. induction items as [|item rest IH]; intros w Hc Hl Hu it Hin.
    { by apply elem_of_nil in Hin. }
    set (w1 := MemoryCollection.save1 c item w).
    change (MemoryCollection.save c (item :: rest) w).1
      with (MemoryCollection.save c rest w1).1.
    destruct (save1_sizes c item w) as (Hh1 & Hc1 & Hn1). fold w1 in Hh1, Hc1, Hn1.
    destruct (save1_control c item w) as (_&_&_&_&Hsrc). fold w1 in Hsrc.
    destruct (save1_spec c item w) as (Ht & Hf & _ & Hnew);
      [done | apply Hl, list_elem_of_here | done |]. fold w1 in Ht, Hf, Hnew.
    destruct (save_sizes c rest w1) as (_ & _ & Hn').
    assert (A1 : c < length (colls w1)) by (by rewrite Hc1).
    assert (A2 : forall it', it' ∈ rest -> it' < length (heap w1)).
    { intros it' Hin'. rewrite Hh1. by apply Hl, list_elem_of_further. }
    assert (A3 : forall n, uuid_src w1 n ≠ "").
    { intros n. by rewrite Hsrc. }
    pose proof (IH w1 A1 A2 A3) as IH'. clear IH.
    (* what the first turn did to [it] *)
    assert (Hstep : it ≠ item ∨ falsy (_id (obj w it)) = false ->
                    obj w1 it = obj w it)
      by apply save1_obj_stable.
    destruct (decide (it = item)) as [->|Hne].
    + (* the first argument: settled by its own turn, stable afterwards *)
      rewrite (save_obj_stable c rest w1 item) by (by right).
      split_and!; [done | done | |].
      * intros Hf0. apply Hstep. by right.
      * intros Hf0. destruct (Hnew Hf0) as (Hid & Hnext).
        exists (uuid_next w). split; [lia | done].
    + assert (Hin' : it ∈ rest).
      { apply elem_of_cons in Hin as [?|?]; done. }
      destruct (IH' it Hin') as (Ht' & Hf' & Hsame & Hfresh).
      rewrite Hstep in Hf', Hsame, Hfresh by (by left).
      split_and!; [done | done | done |].
      intros Hf0. destruct (Hfresh Hf0) as (n & Hn & Hid).
      exists n. split; [lia | by rewrite <- Hsrc].
Qed.

(** ** Select.toOne *)

Section ObjectAssign.
Context {K V : Type} `{EqDecision K}.
Implicit Types (m : list (K * V)) (k : K) (v : V).

Lemma get_app m1 m2 k :
  JsMap.get k (m1 ++ m2) =
    match JsMap.get k m1 with Some v => Some v | None => JsMap.get k m2 end.
Proof.
  induction m1 as [|[k' v'] m1 IH]; simpl; [done|].
  by destruct (decide (k = k')).
Qed.

Lemma set_absent m k v : k ∉ JsMap.keys m -> JsMap.set k v m = m ++ [(k, v)].
Proof.
  unfold JsMap.keys. induction m as [|[k' v'] m IH]; simpl; [done|].
  rewrite not_elem_of_cons. intros [Hne Hnotin].
  rewrite decide_False by done. by rewrite IH.
Qed.
End ObjectAssign.

(** A property set by [Object.assign] has the value of its last occurrence
    in the source; the other properties of the target keep theirs. *)
Lemma Object_assign_get (target source : Obj) (k : string) :
  JsMap.get k (Object_assign target source) =
    match JsMap.get k (rev source) with
    | Some v => Some v
    | None => JsMap.get k target
    end.
Proof.
  unfold Object_assign. revert target.
  induction source as [|[k1 v1] source IH]; intros target; simpl; [done|].
  rewrite IH, get_app. destruct (JsMap.get k (rev source)); [done|].
  simpl. destruct (decide (k = k1)) as [->|Hne].
  - apply get_set_eq.
  - by apply get_set_ne.
Qed.

Lemma handleFromValue_merge_joins this item joins w result :
  fold_left
    (fun (acc : World * Obj) (entry : cref * Select.JoinCB) =>
       let '(w, result) := acc in
       let '(joinCollection, joinCB) := entry in
       let '(w1, value) := joinCB item w in
       let exposedValue := Select.exposed this joinCollection value in
       (w1, Object_assign result exposedValue))
    joins (w, result)
  = SelectSpec.merge_joins this item joins w result.
Proof.
  revert w result. induction joins as [|[c cb] joins IH]; intros w result; [done|].
  simpl. destruct (cb item w) as [w1 value]. apply IH.
Qed.

(** C9.  [toOne()] returns nothing, and leaves the world alone, when
    [searchOne] finds no source record.  Otherwise it returns one object:
    the empty object with the projection of the source record merged in,
    then, for each joined collection from the first registered to the last,
    the projection of what its callback fetched for the source record merged
    in, each callback running in the world the one before it left.  A merge
    overwrites the properties it brings and keeps the others.  A collection
    joined for the first time goes to the end of the joined collections. *)
Theorem toOne_spec (this : Select.t) (w : World) :
  (MemoryCollection.searchOne (Select._from this) (Select._condition this) w = None ->
     Select.toOne this w = (w, None))
  ∧ (forall source,
       MemoryCollection.searchOne (Select._from this) (Select._condition this) w
         = Some source ->
       exists w1 result,
         Select.toOne this w = (w1, Some result)
         ∧ (w1, result) =
             SelectSpec.merge_joins this source (Select._joinMap this) w
               (Object_assign []
                  (Select.exposed this (Select._from this) (Select.One (obj w source)))))
  ∧ Select.toOne this w = SelectSpec.toOne this w
  ∧ (forall (result part : Obj) (k : string),
       JsMap.get k (Object_assign result part) =
         match JsMap.get k (rev part) with
         | Some v => Some v
         | None => JsMap.get k result
         end)
  ∧ (forall c cb,
       c ∉ JsMap.keys (Select._joinMap this) ->
       Select._joinMap (Select.join this c cb) = Select._joinMap this ++ [(c, cb)]).
Proof.
  assert (Heq : Select.toOne this w = SelectSpec.toOne this w).
  { unfold Select.toOne, SelectSpec.toOne, Select._handleFromValue, JsMap.entries.
    destruct (MemoryCollection.searchOne _ _ w) as [source|]; [|done].
    by rewrite handleFromValue_merge_joins. }
  split_and!.
  - intros Hnone. unfold Select.toOne. by rewrite Hnone.
  - intros source Hsome. rewrite Heq. unfold SelectSpec.toOne. rewrite Hsome.
    destruct (SelectSpec.merge_joins _ _ _ _ _) as [w1 result].
    by exists w1, result.
  - done.
  - intros. apply Object_assign_get.
  - intros c cb Hc. simpl. by apply set_absent.
Qed.

(** ** Saves of new records, rolled back

    What the compensation of [save] does achieve: when every saved item is a
    new record (no [_id], or an [_id] the collection does not hold), the
    rollback leaves the map of the collection and its records as they were
    before the saves. *)
Section JsMapAppend.
Context {K V : Type} `{EqDecision K}.
Implicit Types (m : list (K * V)) (k : K) (v : V).

Lemma keys_app m1 m2 : JsMap.keys (m1 ++ m2) = JsMap.keys m1 ++ JsMap.keys m2.
Proof. unfold JsMap.keys. apply fmap_app. Qed.

Lemma values_app m1 m2 : JsMap.values (m1 ++ m2) = JsMap.values m1 ++ JsMap.values m2.
Proof. unfold JsMap.values. apply fmap_app. Qed.

Lemma set_app_r m1 m2 k v :
  k ∉ JsMap.keys m1 -> JsMap.set k v (m1 ++ m2) = m1 ++ JsMap.set k v m2.
Proof.
  unfold JsMap.keys. induction m1 as [|[k' v'] m1 IH]; simpl; [done|].
  rewrite not_elem_of_cons. intros [Hne Hnotin].
  rewrite decide_False by done. by rewrite IH.
Qed.

Lemma delete_app_r m1 m2 k :
  k ∉ JsMap.keys m1 -> JsMap.delete k (m1 ++ m2) = m1 ++ JsMap.delete k m2.
Proof.
  unfold JsMap.keys. induction m1 as [|[k' v'] m1 IH]; simpl; [done|].
  rewrite not_elem_of_cons. intros [Hne Hnotin].
  rewrite decide_False by done. by rewrite IH.
Qed.

Lemma elem_of_set m k v k' v' :
  (k', v') ∈ JsMap.set k v m -> (k', v') = (k, v) ∨ (k', v') ∈ m.
Proof.
  induction m as [|[k1 v1] m IH]; simpl.
  - intros Hin. apply list_elem_of_singleton in Hin. by left.
  - destruct (decide (k = k1)) as [->|Hne]; intros Hin;
      apply elem_of_cons in Hin as [Heq|Hin].
    + by left.
    + right. by apply list_elem_of_further.
    + right. rewrite Heq. apply list_elem_of_here.
    + destruct (IH Hin) as [?|?]; [by left|]. right. by apply list_elem_of_further.
Qed.

Lemma keys_set m k v k' : k' ∈ JsMap.keys (JsMap.set k v m) -> k' = k ∨ k' ∈ JsMap.keys m.
Proof.
  unfold JsMap.keys. intros Hin. apply list_elem_of_fmap in Hin as ([k1 v1] & -> & Hin).
  destruct (elem_of_set _ _ _ _ _ Hin) as [[= -> ->]|Hin']; [by left|].
  right. apply list_elem_of_fmap. by exists (k1, v1).
Qed.

Lemma NoDup_keys_set m k v : NoDup (JsMap.keys m) -> NoDup (JsMap.keys (JsMap.set k v m)).
Proof.
  induction m as [|[k1 v1] m IH]; simpl.
  - intros _. apply NoDup_singleton.
  - unfold JsMap.keys in *. simpl. rewrite NoDup_cons. intros [Hnotin Hnd].
    destruct (decide (k = k1)) as [->|Hne]; simpl.
    + by apply NoDup_cons.
    + apply NoDup_cons. split; [|by apply IH].
      intros Hin. destruct (keys_set m k v k1 Hin) as [->|?]; done.
Qed.

Lemma elem_of_delete m k k' v' : (k', v') ∈ JsMap.delete k m -> (k', v') ∈ m.
Proof.
  induction m as [|[k1 v1] m IH]; simpl; [done|].
  destruct (decide (k = k1)) as [->|Hne]; intros Hin.
  - by apply list_elem_of_further.
  - apply elem_of_cons in Hin as [->|Hin]; [apply list_elem_of_here|].
    apply list_elem_of_further. auto.
Qed.

Lemma keys_delete m k k' : k' ∈ JsMap.keys (JsMap.delete k m) -> k' ∈ JsMap.keys m.
Proof.
  unfold JsMap.keys. intros Hin. apply list_elem_of_fmap in Hin as ([k1 v1] & -> & Hin).
  apply list_elem_of_fmap. exists (k1, v1). split; [done|]. by eapply elem_of_delete.
Qed.

Lemma NoDup_keys_delete m k : NoDup (JsMap.keys m) -> NoDup (JsMap.keys (JsMap.delete k m)).
Proof.
  induction m as [|[k1 v1] m IH]; simpl; [done|].
  unfold JsMap.keys in *. simpl. rewrite NoDup_cons. intros [Hnotin Hnd].
  destruct (decide (k = k1)) as [->|Hne]; simpl; [done|].
  apply NoDup_cons. split; [|by apply IH].
  intros Hin. by apply keys_delete in Hin.
Qed.

Lemma keys_delete_gone m k : NoDup (JsMap.keys m) -> k ∉ JsMap.keys (JsMap.delete k m).
Proof.
  induction m as [|[k1 v1] m IH]; simpl.
  - intros _. apply not_elem_of_nil.
  - unfold JsMap.keys in *. simpl. rewrite NoDup_cons. intros [Hnotin Hnd].
    destruct (decide (k = k1)) as [->|Hne]; simpl; [done|].
    rewrite not_elem_of_cons. split; [done | by apply IH].
Qed.
End JsMapAppend.

Lemma falsy_false (i : option string) :
  falsy i = false <-> exists k, i = Some k ∧ k ≠ "".
Proof.
  unfold falsy. destruct i as [k|].
  - rewrite bool_decide_eq_false. split; [by exists k | by intros (? & [= <-] & ?)].
  - split; [done | by intros (? & ? & ?)].
Qed.

Section SaveRollback.
Variables (c : cref) (orig : list (string * loc)) (all : list loc).

Lemma save1_inv item w :
  Inv c orig all w -> item ∈ all ->
  let w1 := MemoryCollection.save1 c item w in
  Inv c orig all w1
  ∧ (forall l, l ∈ JsMap.values orig -> obj w1 l = obj w l)
  ∧ (forall c', c' ≠ c -> coll w1 c' = coll w c').
Proof.
  intros [Hc Hheap (new & Hmap & Hnd & Hnew) Hids Huuid Halias] Hin w1.
  subst w1. destruct (falsy (_id (obj w item))) eqn:Hf.
  - (* a new identifier *)
    rewrite save1_falsy by done. cbv zeta.
    set (u := uuid_src w (uuid_next w)).
    destruct (Huuid (uuid_next w)) as [Hu Hufresh]; [lia|]. fold u in Hu, Hufresh.
    set (wh := set_obj item _ _).
    assert (Hobj_item : obj wh item = mkItem (Some u) (fields (obj w item))).
    { subst wh. apply obj_set_obj_eq. simpl. by apply Hheap. }
    assert (Hobj_other : forall l, l ≠ item -> obj wh l = obj w l).
    { intros l Hne. subst wh. by rewrite obj_set_obj_ne. }
    assert (Hnew_other : forall k l, (k, l) ∈ new -> l ≠ item).
    { intros k l Hkl ->. destruct (Hnew _ _ Hkl) as (Hid & Hk & _).
      assert (falsy (_id (obj w item)) = false) by (apply falsy_false; eauto).
      congruence. }
    split_and!.
    + split.
      * simpl. by rewrite length_insert.
      * intros it Hit. simpl. rewrite length_insert. by apply Hheap.
      * exists (JsMap.set u item new). split_and!.
        -- rewrite coll_set_map_eq by done.
           change (coll wh c) with (coll w c). rewrite Hmap. by apply set_app_r.
        -- by apply NoDup_keys_set.
        -- intros k l Hkl. rewrite obj_set_map.
           destruct (elem_of_set _ _ _ _ _ Hkl) as [[= -> ->]|Hold].
           ++ by rewrite Hobj_item.
           ++ rewrite Hobj_other by eauto. by apply Hnew.
      * intros it k Hit. rewrite obj_set_map.
        destruct (decide (it = item)) as [->|Hne].
        -- rewrite Hobj_item. simpl. by intros [= <-] _.
        -- rewrite Hobj_other by done. by apply Hids.
      * intros n Hn. apply Huuid. simpl in Hn. lia.
      * intros it Hit. rewrite obj_set_map.
        destruct (decide (it = item)) as [->|Hne].
        -- rewrite Hobj_item. simpl. by rewrite bool_decide_eq_false_2.
        -- rewrite Hobj_other by done. by apply Halias.
    + intros l Hl. rewrite obj_set_map. apply Hobj_other.
      intros ->. by apply (Halias item).
    + intros c' Hne. by rewrite coll_set_map_ne.
  - (* the item came with its identifier *)
    rewrite save1_truthy by done.
    apply falsy_false in Hf as (k & Hid & Hk).
    assert (Hkfresh : k ∉ JsMap.keys orig) by (by eapply Hids).
    unfold idOf. rewrite Hid. simpl.
    split_and!.
    + split.
      * simpl. by rewrite length_insert.
      * done.
      * exists (JsMap.set k item new). split_and!.
        -- rewrite coll_set_map_eq by done. rewrite Hmap. by apply set_app_r.
        -- by apply NoDup_keys_set.
        -- intros k' l Hkl. rewrite obj_set_map.
           destruct (elem_of_set _ _ _ _ _ Hkl) as [[= -> ->]|Hold]; [done|].
           by apply Hnew.
      * done.
      * done.
      * done.
    + done.
    + intros c' Hne. by rewrite coll_set_map_ne.
Qed.

Lemma save_inv items w :
  Inv c orig all w -> items ⊆ all ->
  let w1 := (MemoryCollection.save c items w).1 in
  Inv c orig all w1
  ∧ (forall l, l ∈ JsMap.values orig -> obj w1 l = obj w l)
  ∧ (forall c', c' ≠ c -> coll w1 c' = coll w c').
Proof.
  unfold MemoryCollection.save. cbn [fst].
  revert w. induction items as [|item rest IH]; intros w HI Hsub; [done|].
  cbn [fold_left].
  destruct (save1_inv item w HI) as (HI1 & Hobj1 & Hc1).
  { apply Hsub, list_elem_of_here. }
  destruct (IH _ HI1) as (HI' & Hobj' & Hc').
  { intros x Hx. by apply Hsub, list_elem_of_further. }
  split_and!; [done | |].
  - intros l Hl. rewrite Hobj' by done. by apply Hobj1.
  - intros c' Hne. rewrite Hc' by done. by apply Hc1.
Qed.

(** Every saved item has its identifier afterwards. *)
Lemma save_truthy items w item :
  Inv c orig all w -> items ⊆ all -> item ∈ items ->
  falsy (_id (obj (MemoryCollection.save c items w).1 item)) = false.
Proof.
  revert w. induction items as [|it rest IH]; intros w HI Hsub Hin.
  { by apply elem_of_nil in Hin. }
  change (MemoryCollection.save c (it :: rest) w).1
    with (MemoryCollection.save c rest (MemoryCollection.save1 c it w)).1.
  assert (Hit : it ∈ all) by apply Hsub, list_elem_of_here.
  destruct (save1_inv it w HI Hit) as (HI1 & _ & _).
  assert (Hsub' : rest ⊆ all).
  { intros x Hx. by apply Hsub, list_elem_of_further. }
  destruct (decide (item = it)) as [->|Hne].
  - destruct (save1_spec c it w) as (Ht & _);
      [apply HI | by apply HI | apply HI; lia |].
    rewrite save_obj_stable; [done | by right].
  - apply elem_of_cons in Hin as [?|Hin]; [done|]. by apply IH.
Qed.
End SaveRollback.

Section RollbackDeletes.
Variables (c : cref) (orig : list (string * loc)).

(** The loop of [delete], when every record it is given carries an id that
    is not a key of [orig]: only appended entries go. *)
Lemma delete_loop (vs : list loc) w new :
  c < length (colls w) ->
  MC._map (coll w c) = orig ++ new -> NoDup (JsMap.keys new) ->
  (forall v, v ∈ vs -> exists k, _id (obj w v) = Some k ∧ k ∉ JsMap.keys orig) ->
  let w' := fold_left
              (fun w value => MemoryCollection.map_delete c (_id (obj w value)) w)
              vs w in
  heap w' = heap w ∧ length (colls w') = length (colls w)
  ∧ (forall c', c' ≠ c -> coll w' c' = coll w c')
  ∧ exists new',
      MC._map (coll w' c) = orig ++ new' ∧ NoDup (JsMap.keys new')
      ∧ (forall e, e ∈ new' -> e ∈ new)
      ∧ (forall v k, v ∈ vs -> _id (obj w v) = Some k -> k ∉ JsMap.keys new').
Proof.
  revert w new. induction vs as [|v vs IH]; intros w new Hc Hmap Hnd Hvs; cbn [fold_left].
  { split_and!; try done. exists new. split_and!; try done.
    intros v k Hv. by apply elem_of_nil in Hv. }
  destruct (Hvs v) as (k & Hid & Hk); [apply list_elem_of_here|].
  rewrite Hid. cbn [MemoryCollection.map_delete].
  rewrite Hmap, delete_app_r by done.
  set (w1 := set_map c (orig ++ JsMap.delete k new) w).
  assert (Hc1 : c < length (colls w1)).
  { subst w1. simpl. by rewrite length_insert. }
  assert (Hmap1 : MC._map (coll w1 c) = orig ++ JsMap.delete k new).
  { subst w1. by rewrite coll_set_map_eq. }
  destruct (IH w1 (JsMap.delete k new) Hc1 Hmap1) as (Hh & Hl & Hoth & new' & Hm' & Hnd' & Hsub & Hgone).
  { by apply NoDup_keys_delete. }
  { intros v' Hv'. apply Hvs. by apply list_elem_of_further. }
  split_and!.
  - by rewrite Hh.
  - rewrite Hl. subst w1. simpl. by rewrite length_insert.
  - intros c' Hne. rewrite Hoth by done. subst w1. by rewrite coll_set_map_ne.
  - exists new'. split_and!; try done.
    + intros e He. destruct e as [k' l']. eapply elem_of_delete. by apply Hsub.
    + intros v' k' Hv' Hid'. apply elem_of_cons in Hv' as [->|Hv'].
      * rewrite Hid in Hid'. injection Hid' as <-.
        intros Hin. apply (keys_delete_gone new k Hnd).
        unfold JsMap.keys in *. apply list_elem_of_fmap in Hin as (e & -> & He).
        apply list_elem_of_fmap. exists e. split; [done | by apply Hsub].
      * by apply (Hgone v').
Qed.

(** The compensation of one [save]: the entries of its items go. *)
Lemma call_delete_ids (b rest : list loc) w new :
  c < length (colls w) ->
  MC._map (coll w c) = orig ++ new -> NoDup (JsMap.keys new) ->
  (forall k l, (k, l) ∈ new -> _id (obj w l) = Some k ∧ (l ∈ rest ∨ l ∈ b)) ->
  (forall item, item ∈ b -> exists k, _id (obj w item) = Some k ∧ k ∉ JsMap.keys orig) ->
  let w' := Transaction.call (RbDeleteIdsOf c b) w in
  heap w' = heap w ∧ c < length (colls w')
  ∧ (forall c', c' ≠ c -> coll w' c' = coll w c')
  ∧ exists new',
      MC._map (coll w' c) = orig ++ new' ∧ NoDup (JsMap.keys new')
      ∧ (forall k l, (k, l) ∈ new' -> _id (obj w' l) = Some k ∧ l ∈ rest).
Proof.
  intros Hc Hmap Hnd Hnew Hb w'. subst w'.
  unfold Transaction.call, MemoryCollection.delete. cbn [fst].
  set (ids := map (fun item => _id (obj w item)) b).
  set (result := MemoryCollection.search c (QIdIn ids) w).
  assert (Hres : forall v, v ∈ result <->
            v ∈ JsMap.values (MC._map (coll w c)) ∧ _id (obj w v) ∈ ids).
  { intros v. subst result. unfold MemoryCollection.search.
    rewrite list_elem_of_In, filter_In, <- list_elem_of_In.
    simpl. by rewrite bool_decide_eq_true. }
  assert (Hids : forall v, _id (obj w v) ∈ ids ->
            exists k, _id (obj w v) = Some k ∧ k ∉ JsMap.keys orig).
  { intros v Hv. subst ids. apply list_elem_of_fmap in Hv as (item & Heq & Hitem).
    rewrite Heq. by apply Hb. }
  destruct (delete_loop result w new Hc Hmap Hnd)
    as (Hh & Hl & Hoth & new' & Hm' & Hnd' & Hsub & Hgone).
  { intros v Hv. apply Hids. by apply Hres. }
  split_and!; [done | by rewrite Hl | done |].
  exists new'. split_and!; [done | done |].
  intros k l Hkl. destruct (Hnew k l (Hsub _ Hkl)) as (Hid & [Hrest|Hinb]).
  - split; [|done]. unfold obj in *. by rewrite Hh.
  - exfalso. apply (Hgone l k); [|done|].
    + apply Hres. split.
      * rewrite Hmap, values_app. apply elem_of_app. right.
        unfold JsMap.values. apply list_elem_of_fmap. exists (k, l). split; [done|].
        by apply Hsub.
      * subst ids. apply list_elem_of_fmap. by exists l.
    + unfold JsMap.keys. apply list_elem_of_fmap. by exists (k, l).
Qed.

(** The compensations of the saves, most recent first: every appended entry
    goes. *)
Lemma rollback_deletes (bs : list (list loc)) w new :
  c < length (colls w) ->
  MC._map (coll w c) = orig ++ new -> NoDup (JsMap.keys new) ->
  (forall k l, (k, l) ∈ new -> _id (obj w l) = Some k ∧ l ∈ concat bs) ->
  (forall item, item ∈ concat bs ->
     exists k, _id (obj w item) = Some k ∧ k ∉ JsMap.keys orig) ->
  let w' := fold_left (fun w f => Transaction.call f w)
              (rev (map (RbDeleteIdsOf c) bs)) w in
  heap w' = heap w ∧ MC._map (coll w' c) = orig
  ∧ (forall c', c' ≠ c -> coll w' c' = coll w c').
Proof.
  revert w new. induction bs as [|b bs IH] using rev_ind;
    intros w new Hc Hmap Hnd Hnew Hids; cbn zeta.
  - simpl. split_and!; try done.
    destruct new as [|[k l] new]; [by rewrite Hmap, app_nil_r|].
    destruct (Hnew k l) as [_ Hin]; [apply list_elem_of_here|].
    by apply elem_of_nil in Hin.
  - rewrite map_app, rev_app_distr. cbn [map rev app fold_left].
    destruct (call_delete_ids b (concat bs) w new Hc Hmap Hnd)
      as (Hh & Hc1 & Hoth & new' & Hm' & Hnd' & Hnew').
    { intros k l Hkl. destruct (Hnew k l Hkl) as [Hid Hin]. split; [done|].
      rewrite concat_app in Hin. apply elem_of_app in Hin as [?|Hin]; [by left|].
      right. simpl in Hin. by rewrite app_nil_r in Hin. }
    { intros item Hin. apply Hids. rewrite concat_app. apply elem_of_app.
      right. simpl. by rewrite app_nil_r. }
    set (w1 := Transaction.call (RbDeleteIdsOf c b) w) in *.
    destruct (IH w1 new' Hc1 Hm' Hnd' Hnew') as (Hh' & Hmap' & Hoth').
    { intros item Hin. unfold obj. rewrite Hh. apply Hids.
      rewrite concat_app. apply elem_of_app. by left. }
    split_and!; [by rewrite Hh' | done |].
    intros c' Hne. rewrite Hoth' by done. by apply Hoth.
Qed.
End RollbackDeletes.

Lemma same_data_obj w w' l : same_data w w' -> obj w' l = obj w l.
Proof. intros (H&_). unfold obj. by rewrite H. Qed.

Lemma same_data_coll w w' c : same_data w w' -> coll w' c = coll w c.
Proof. intros (_&H&_). unfold coll. by rewrite H. Qed.

Lemma Inv_same_data c orig all w w' : same_data w w' -> Inv c orig all w -> Inv c orig all w'.
Proof.
  intros Hd [Hc Hheap (new & Hmap & Hnd & Hnew) Hids Huuid Halias].
  pose proof Hd as (Hh & Hcs & Hs & Hn).
  split.
  - by rewrite Hcs.
  - intros item Hin. rewrite Hh. by apply Hheap.
  - exists new. split_and!; [by rewrite (same_data_coll w) | done |].
    intros k l Hkl. rewrite (same_data_obj w) by done. by apply Hnew.
  - intros item k. rewrite (same_data_obj w) by done. apply Hids.
  - intros n. rewrite Hs, Hn. apply Huuid.
  - intros item. rewrite (same_data_obj w) by done. apply Halias.
Qed.

(** [save] through the transaction: the backend's [save], and one closure
    more on the log when something was saved while active. *)
Lemma T_save_spec this items w :
  this < length (txs w) ->
  let c := TX.collection (tx w this) in
  let w1 := (MemoryCollection.save c items w).1 in
  let w2 := (Transaction.save this items w).1 in
  same_data w1 w2
  ∧ length (txs w2) = length (txs w)
  ∧ TX.collection (tx w2 this) = c
  ∧ TX._begin (tx w2 this) = TX._begin (tx w this)
  ∧ TX._rollbackFns (tx w2 this) =
      TX._rollbackFns (tx w this)
      ++ (if (0 <? length items) && TX._begin (tx w this)
          then [RbDeleteIdsOf c items] else []).
Proof.
  intros Hlt c w1 w2. subst w2. unfold Transaction.save. fold c.
  change (MemoryCollection.save c items w) with (w1, items). cbn [fst].
  pose proof (save_control c items w) as Hctl. fold w1 in Hctl.
  pose proof (same_control_tx _ _ this Hctl) as Htx.
  destruct Hctl as (Htxs & _).
  unfold Transaction.logging. rewrite Htx.
  destruct ((0 <? length items) && TX._begin (tx w this)).
  - unfold Transaction.push. rewrite Htx.
    rewrite tx_set_tx_eq by (by rewrite Htxs).
    split_and!; try done.
    simpl. by rewrite length_insert, Htxs.
  - rewrite Htx, app_nil_r. split_and!; try done. by rewrite Htxs.
Qed.

Lemma concat_nonempty (batches : list (list loc)) (x : loc) :
  x ∈ concat batches <-> x ∈ concat (List.filter nonempty batches).
Proof.
  induction batches as [|b batches IH]; [done|].
  simpl. destruct b as [|y b]; simpl; [done|].
  rewrite !elem_of_cons, !elem_of_app. by rewrite IH.
Qed.

Lemma saves_obj_stable this batches w item :
  falsy (_id (obj w item)) = false -> obj (saves this batches w) item = obj w item.
Proof.
  unfold saves. revert w. induction batches as [|b batches IH]; intros w Ht; [done|].
  cbn [fold_left].
  assert (Hs : obj (Transaction.save this b w).1 item = obj w item).
  { transitivity (obj (MemoryCollection.save (TX.collection (tx w this)) b w).1 item).
    - unfold Transaction.save.
      change (MemoryCollection.save (TX.collection (tx w this)) b w)
        with ((MemoryCollection.save (TX.collection (tx w this)) b w).1, b).
      cbn [fst]. by destruct (Transaction.logging _ _ _).
    - apply save_obj_stable. by right. }
  rewrite IH; [done | by rewrite Hs].
Qed.

Lemma saves_spec c orig all this batches w :
  this < length (txs w) ->
  TX.collection (tx w this) = c -> TX._begin (tx w this) = true ->
  Inv c orig all w -> concat batches ⊆ all ->
  let w1 := saves this batches w in
  Inv c orig all w1
  ∧ (forall l, l ∈ JsMap.values orig -> obj w1 l = obj w l)
  ∧ (forall c', c' ≠ c -> coll w1 c' = coll w c')
  ∧ (forall item, item ∈ concat batches -> falsy (_id (obj w1 item)) = false)
  ∧ TX._rollbackFns (tx w1 this) =
      TX._rollbackFns (tx w this)
      ++ map (RbDeleteIdsOf c) (List.filter nonempty batches).
Proof.
  unfold saves.
  revert w. induction batches as [|b batches IH]; intros w Hlt Hcol Hbeg HI Hsub.
  { simpl. rewrite app_nil_r. split_and!; try done.
    intros item Hin. by apply elem_of_nil in Hin. }
  cbn [fold_left].
  destruct (T_save_spec this b w Hlt) as (Hd & Hlen & Hcol2 & Hbeg2 & Hlog2).
  rewrite Hcol in Hd, Hcol2, Hlog2. rewrite Hbeg in Hbeg2, Hlog2.
  assert (Hb : b ⊆ all).
  { intros x Hx. apply Hsub. simpl. apply elem_of_app. by left. }
  assert (Hrest : concat batches ⊆ all).
  { intros x Hx. apply Hsub. simpl. apply elem_of_app. by right. }
  destruct (save_inv c orig all b w HI Hb) as (HI1 & Hobj1 & Hc1).
  set (wm := (MemoryCollection.save c b w).1) in *.
  set (w2 := (Transaction.save this b w).1) in *.
  apply (Inv_same_data _ _ _ _ _ Hd) in HI1.
  destruct (IH w2) as (HI' & Hobj' & Hc' & Htruthy' & Hlog'); try done.
  { by rewrite Hlen. }
  split_and!; [done | | | |].
  - intros l Hl. rewrite Hobj' by done. rewrite (same_data_obj _ _ _ Hd). by apply Hobj1.
  - intros c' Hne. rewrite Hc' by done. rewrite (same_data_coll _ _ _ Hd). by apply Hc1.
  - intros item Hin. simpl in Hin. apply elem_of_app in Hin as [Hin|Hin]; [|by apply Htruthy'].
    assert (Ht : falsy (_id (obj w2 item)) = false).
    { rewrite (same_data_obj _ _ _ Hd). by eapply save_truthy. }
    change (fold_left (fun w items => (Transaction.save this items w).1) batches w2)
      with (saves this batches w2).
    by rewrite saves_obj_stable.
  - rewrite Hlog', Hlog2. cbn [List.filter]. unfold nonempty at 2.
    destruct (0 <? length b); simpl; [by rewrite <- app_assoc | by rewrite app_nil_r].
Qed.

(** For every active transaction with an empty log and every sequence of
    [save] calls whose items are new records (no [_id], or an [_id] that is
    not a key of the collection; an item without [_id] is not one of the
    stored objects) followed by [rollback()]: the map of the collection and
    its records are as before the saves, and so are the other collections. *)
Theorem save_rollback_fresh (this : tref) (batches : list (list loc)) (w : World) :
  let c := TX.collection (tx w this) in
  let orig := MC._map (coll w c) in
  this < length (txs w) -> c < length (colls w) ->
  TX._begin (tx w this) = true -> TX._rollbackFns (tx w this) = [] ->
  (forall item, item ∈ concat batches -> item < length (heap w)) ->
  (forall item k, item ∈ concat batches ->
     _id (obj w item) = Some k -> k ≠ "" -> k ∉ JsMap.keys orig) ->
  (forall item, item ∈ concat batches ->
     falsy (_id (obj w item)) = true -> item ∉ JsMap.values orig) ->
  (forall n, uuid_next w ≤ n ->
     uuid_src w n ≠ "" ∧ uuid_src w n ∉ JsMap.keys orig) ->
  let w' := (Transaction.rollback this (saves this batches w)).1 in
  MC._map (coll w' c) = orig
  ∧ (forall l, l ∈ JsMap.values orig -> obj w' l = obj w l)
  ∧ (forall c', c' ≠ c -> coll w' c' = coll w c').
Proof.
  intros c orig Hlt Hc Hbeg Hlog Hheap Hids Halias Huuid w'.
  assert (HI : Inv c orig (concat batches) w).
  { split; try done. exists []. split_and!.
    - by rewrite app_nil_r.
    - apply NoDup_nil_2.
    - intros k l Hkl. by apply elem_of_nil in Hkl. }
  destruct (saves_spec c orig (concat batches) this batches w)
    as (HI1 & Hobj1 & Hc1 & Htruthy & Hlog1); try done.
  set (w1 := saves this batches w) in *.
  rewrite Hlog, app_nil_l in Hlog1.
  subst w'. rewrite rollback_unfold. cbn [fst]. rewrite Hlog1.
  destruct HI1 as [Hc' Hheap' (new & Hmap & Hnd & Hnew) Hids' _ _].
  assert (Hfresh : forall item, item ∈ concat batches ->
            exists k, _id (obj w1 item) = Some k ∧ k ∉ JsMap.keys orig).
  { intros item Hin. destruct (proj1 (falsy_false _) (Htruthy item Hin)) as (k & Hid & Hk).
    exists k. split; [done|]. by eapply Hids'. }
  destruct (rollback_deletes c orig (List.filter nonempty batches) w1 new)
    as (Hh2 & Hmap2 & Hoth2); try done.
  { intros k l Hkl. destruct (Hnew k l Hkl) as (Hid & _ & Hin).
    split; [done|]. by apply (proj1 (concat_nonempty batches l)). }
  { intros item Hin. apply Hfresh. by apply (proj2 (concat_nonempty batches item)). }
  set (w2 := fold_left _ _ w1) in *.
  rewrite end_world. unfold coll, obj in *. simpl.
  split_and!.
  - done.
  - intros l Hl. rewrite Hh2. by apply Hobj1.
  - intros c' Hne. rewrite Hoth2 by done. by apply Hc1.
Qed.

(** ** Rollback after a save over a stored record, and after an update *)

(** C1, on a save over a stored record.  The collection holds John under
    "1"; an active transaction saves a record with [_id] "1" and is rolled
    back.  The save replaced John, its compensation deletes the id "1", and
    the collection ends up empty instead of holding John. *)
Theorem save_over_existing_rollback_deletes :
  Scenario.records 0 Rollback.stored.1 = [Scenario.john]
  ∧ TX._begin (tx Rollback.stored.1 0) = true
  ∧ Scenario.records 0 Rollback.saved_over = [Scenario.johnny]
  ∧ TX._rollbackFns (tx Rollback.saved_over 0) = [RbDeleteIdsOf 0 [1]]
  ∧ Transaction.rollback 0 Rollback.saved_over = (Rollback.save_rolled_back, inr ())
  ∧ Scenario.records 0 Rollback.save_rolled_back = []
  ∧ MemoryCollection.getById 0 "1" Rollback.save_rolled_back = None.
Proof. vm_compute. done. Qed.

(** C2, on the scenario "rollback after update".  The snapshot taken by the
    search before the update is the stored object itself, the update changes
    that object in place, and the compensation saves the same object again:
    after the rollback [getById] returns the updated record, not John. *)
Theorem update_rollback_keeps_update :
  obj Rollback.stored.1 <$> Transaction.getById 0 "1" Rollback.stored.1
    = Some Scenario.john
  ∧ MemoryCollection.search 0 (QIdIn [Some "1"]) Rollback.stored.1
    = [Rollback.stored.2]
  ∧ TX._rollbackFns (tx Rollback.updated 0) = [RbSave 0 [Rollback.stored.2]]
  ∧ obj Rollback.updated Rollback.stored.2 = Scenario.johnny
  ∧ Transaction.rollback 0 Rollback.updated = (Rollback.update_rolled_back, inr ())
  ∧ obj Rollback.update_rolled_back
      <$> Transaction.getById 0 "1" Rollback.update_rolled_back
    = Some Scenario.johnny
  ∧ Scenario.johnny ≠ Scenario.john.
Proof. vm_compute. split_and!; done. Qed.

(** ** The theorems at work on the scenarios *)

(** The timer of the transaction fires after a save was logged: the
    logged compensation is still there. *)
Lemma timeout_ends_without_rollback_witness :
  timers Rollback.saved_over !! 0 = Some (Some (0, 30000%Z))
  ∧ heap (Transaction.fire 0 Rollback.saved_over) = heap Rollback.saved_over
  ∧ colls (Transaction.fire 0 Rollback.saved_over) = colls Rollback.saved_over
  ∧ TX._rollbackFns (tx (Transaction.fire 0 Rollback.saved_over) 0)
    = [RbDeleteIdsOf 0 [1]]
  ∧ TX._begin (tx (Transaction.fire 0 Rollback.saved_over) 0) = false
  ∧ TX._timeoutHandler (tx (Transaction.fire 0 Rollback.saved_over) 0) = None
  ∧ registry (Transaction.fire 0 Rollback.saved_over) !! "1" = None.
Proof.
  assert (H1 : timers Rollback.saved_over !! 0 = Some (Some (0, 30000%Z)))
    by (vm_compute; reflexivity).
  assert (H2 : TX._rollbackFns (tx Rollback.saved_over 0) = [RbDeleteIdsOf 0 [1]])
    by (vm_compute; reflexivity).
  assert (H3 : TX.id (tx Rollback.saved_over 0) = "1")
    by (vm_compute; reflexivity).
  destruct (timeout_ends_without_rollback 0 0 30000%Z Rollback.saved_over H1)
    as (A & B & C & D & E & F & _).
  rewrite H2 in C. rewrite H3 in F.
  repeat split; assumption.
Defined.

(** [Transaction.get("t1", b)] after work on [a], and the first
    [Transaction.get("t1", a)]. *)
Lemma get_registered_or_new_witness :
  (registry Registry.t1_on_a !! "t1" = Some 1
   ∧ exists w', Transaction.get "t1" 1 Registry.t1_on_a = (w', ATransaction 1)
       ∧ TX.collection (tx w' 1) = 1
       ∧ TX._rollbackFns (tx w' 1) = [RbDeleteIdsOf 0 [0]]
       ∧ TX._begin (tx w' 1) = true)
  ∧ (Transaction.lookup "t1" Registry.two_collections = None
     ∧ exists w', Transaction.get "t1" 0 Registry.two_collections
                  = (w', ATransaction 1)
         ∧ tx w' 1 = TX.mk "t1" 0 [] true (Some 1)
         ∧ registry w' !! "t1" = Some 1).
Proof.
  assert (H1 : registry Registry.t1_on_a !! "t1" = Some 1)
    by (vm_compute; reflexivity).
  assert (H2 : txs Registry.t1_on_a !! 1 =
               Some (TX.mk "t1" 0 [RbDeleteIdsOf 0 [0]] true (Some 1)))
    by (vm_compute; reflexivity).
  assert (H3 : Transaction.lookup "t1" Registry.two_collections = None)
    by (vm_compute; reflexivity).
  split.
  - split; [exact H1|].
    destruct (proj1 (get_registered_or_new "t1" 1 Registry.t1_on_a) _ _ H1 H2)
      as (w' & Hget & _ & Hc & Hl & Hb & _).
    exists w'. rewrite (tx_lookup _ _ _ H2) in Hl, Hb.
    repeat split; assumption.
  - split; [exact H3|].
    destruct (proj2 (get_registered_or_new "t1" 0 Registry.two_collections) H3)
      as (w' & Hget & _ & Hx & Hr & _).
    exists w'. split; [exact Hget|]. split; [exact Hx|].
    rewrite Hr. apply lookup_insert_eq.
Defined.

(** [Transaction.get("constructor", collection)] right after [beforeEach]:
    what comes back is not a transaction, and the only registered
    transaction is still the one of [beforeEach]. *)
Lemma get_inherited_id_witness :
  "constructor" ∈ Object_prototype_members
  ∧ registry Scenario.w0 !! "constructor" = None
  ∧ (Transaction.get "constructor" 0 Scenario.w0).2 = ABuiltin "constructor"
  ∧ length (txs (Transaction.get "constructor" 0 Scenario.w0).1) = 1
  ∧ registry (Transaction.get "constructor" 0 Scenario.w0).1 !! "constructor" = None
  ∧ timers (Transaction.get "constructor" 0 Scenario.w0).1 = timers Scenario.w0.
Proof.
  assert (H1 : "constructor" ∈ Object_prototype_members)
    by apply list_elem_of_here.
  assert (H2 : registry Scenario.w0 !! "constructor" = None)
    by (vm_compute; reflexivity).
  destruct (get_inherited_id "constructor" 0 Scenario.w0 H1 H2)
    as (A & B & C & D).
  split; [exact H1|]. split; [exact H2|].
  split; [by rewrite A|]. split; [by rewrite B|]. split; [exact C | exact D].
Defined.

(** [deleteById("missing")] on the empty collection of [beforeEach]. *)
Lemma deleteById_missing_witness :
  MemoryCollection.getById (TX.collection (tx Scenario.w0 0)) "missing" Scenario.w0
    = None
  ∧ MemoryCollection.deleteById (TX.collection (tx Scenario.w0 0)) "missing"
      Scenario.w0 = (Scenario.w0, false)
  ∧ Transaction.deleteById 0 "missing" Scenario.w0 = (Scenario.w0, true).
Proof.
  assert (H : MemoryCollection.getById (TX.collection (tx Scenario.w0 0))
                "missing" Scenario.w0 = None) by (vm_compute; reflexivity).
  split; [exact H|]. exact (deleteById_missing 0 "missing" Scenario.w0 H).
Defined.

(** An update for the id "9" when only "1" is stored. *)
Lemma update_missing_id_fails_witness :
  keyed (TX.collection (tx Rollback.patched.1 0)) Rollback.patched.1
  ∧ (exists item, item ∈ [Rollback.patched.2]
       ∧ missing (TX.collection (tx Rollback.patched.1 0)) Rollback.patched.1 item)
  ∧ exists w' item,
      Transaction.update 0 [Rollback.patched.2] Rollback.patched.1
        = (w', inl (NotFound (_id (obj Rollback.patched.1 item))))
      ∧ TX._rollbackFns (tx w' 0) = TX._rollbackFns (tx Rollback.patched.1 0).
Proof.
  assert (Hk : keyed (TX.collection (tx Rollback.patched.1 0)) Rollback.patched.1).
  { intros k l.
    change (MC._map (coll Rollback.patched.1
                       (TX.collection (tx Rollback.patched.1 0))))
      with [("1", 0)].
    simpl. destruct (decide (k = "1")) as [->|]; [|discriminate].
    intros [= <-]. reflexivity. }
  assert (Hm : exists item, item ∈ [Rollback.patched.2]
       ∧ missing (TX.collection (tx Rollback.patched.1 0)) Rollback.patched.1 item).
  { exists Rollback.patched.2. split; [apply list_elem_of_here|].
    vm_compute. reflexivity. }
  split; [exact Hk|]. split; [exact Hm|].
  destruct (update_missing_id_fails 0 [Rollback.patched.2] Rollback.patched.1 Hk Hm)
    as (w' & item & _ & _ & _ & Hup & _ & Hlog).
  exists w', item. split; assumption.
Defined.

(** Alice, without id, and Johnny, over John, saved in one call. *)
Lemma save_upsert_witness :
  0 < length (colls Rollback.incoming)
  ∧ (forall item, item ∈ [1; 2] -> item < length (heap Rollback.incoming))
  ∧ (forall n, uuid_src Rollback.incoming n ≠ "")
  ∧ (MemoryCollection.save 0 [1; 2] Rollback.incoming).2 = [1; 2]
  ∧ MC._map (coll (MemoryCollection.save 0 [1; 2] Rollback.incoming).1 0)
    = [("1", 2); ("uuid-0", 1)]
  ∧ (forall l, l ∉ [1; 2] ->
       obj (MemoryCollection.save 0 [1; 2] Rollback.incoming).1 l
       = obj Rollback.incoming l).
Proof.
  assert (H1 : 0 < length (colls Rollback.incoming)) by (vm_compute; lia).
  assert (H2 : forall item, item ∈ [1; 2] -> item < length (heap Rollback.incoming)).
  { intros item Hin. change (length (heap Rollback.incoming)) with 3.
    apply elem_of_cons in Hin as [->|Hin]; [lia|].
    apply elem_of_cons in Hin as [->|Hin]; [lia|].
    by apply elem_of_nil in Hin. }
  assert (H3 : forall n, uuid_src Rollback.incoming n ≠ "").
  { intros n. change (uuid_src Rollback.incoming n) with (Scenario.src n).
    unfold Scenario.src. simpl. discriminate. }
  destruct (save_upsert 0 [1; 2] Rollback.incoming H1 H2 H3)
    as (Hres & Hmap & _ & Hother).
  split; [exact H1|]. split; [exact H2|]. split; [exact H3|].
  split; [exact Hres|]. split; [|exact Hother].
  rewrite Hmap. vm_compute. reflexivity.
Defined.

(** The first user with the posts, a condition nobody meets, and the first
    join of a builder. *)
Lemma toOne_spec_witness :
  (MemoryCollection.searchOne 0 QAll Blog.blog = Some 0
   ∧ exists w1 result,
       Select.toOne Blog.usersWithPosts Blog.blog = (w1, Some result)
       ∧ JsMap.get "name" result = Some (VStr "Alice")
       ∧ JsMap.get "_id" result = Some (VStr "1")
       ∧ JsMap.get "posts" result
         = Some (VArr [VObj (asObject Blog.post1); VObj (asObject Blog.post2)]))
  ∧ (MemoryCollection.searchOne 0 (QIdIn [Some "zzz"]) Blog.blog = None
     ∧ Select.toOne Blog.nobody Blog.blog = (Blog.blog, None))
  ∧ ((1 ∉ JsMap.keys (Select._joinMap (Select.from 0)))
     ∧ Select._joinMap (Select.join (Select.from 0) 1 Blog.postsOf)
       = [(1, Blog.postsOf)]).
Proof.
  assert (H1 : MemoryCollection.searchOne
                 (Select._from Blog.usersWithPosts)
                 (Select._condition Blog.usersWithPosts) Blog.blog = Some 0)
    by (vm_compute; reflexivity).
  assert (H2 : MemoryCollection.searchOne
                 (Select._from Blog.nobody)
                 (Select._condition Blog.nobody) Blog.blog = None)
    by (vm_compute; reflexivity).
  assert (H3 : 1 ∉ JsMap.keys (Select._joinMap (Select.from 0)))
    by apply not_elem_of_nil.
  split; [split; [exact H1|] | split; [split; [exact H2|] | split; [exact H3|]]].
  - destruct (toOne_spec Blog.usersWithPosts Blog.blog) as (_ & Hsome & _).
    destruct (Hsome 0 H1) as (w1 & result & Hto & Hres).
    exists w1, result. split; [exact Hto|].
    vm_compute in Hres. injection Hres as _ ->.
    vm_compute. repeat split; reflexivity.
  - exact (proj1 (toOne_spec Blog.nobody Blog.blog) H2).
  - destruct (toOne_spec (Select.from 0) Blog.blog) as (_ & _ & _ & _ & Hjoin).
    exact (Hjoin 1 Blog.postsOf H3).
Defined.

(** The test "rollback after save": Alice, without id, saved and rolled
    back. *)
Lemma save_rollback_fresh_test :
  MC._map (coll (Transaction.rollback 0
                   (saves 0 [[0]] (alloc Scenario.alice Scenario.w0).1)).1 0) = [].
Proof.
  refine (proj1 (save_rollback_fresh 0 [[0]] (alloc Scenario.alice Scenario.w0).1
                   _ _ _ _ _ _ _ _)).
  - vm_compute. lia.
  - vm_compute. lia.
  - reflexivity.
  - reflexivity.
  - intros item Hin. simpl in Hin. apply list_elem_of_singleton in Hin as ->.
    vm_compute. lia.
  - intros item k Hin _ _. apply not_elem_of_nil.
  - intros item Hin _. apply not_elem_of_nil.
  - intros n _. split; [discriminate | apply not_elem_of_nil].
Defined.

(** * Further properties of the code *)

(** ** Insertion-ordered maps: deleting *)
Section JsMapDelete.
Context {K V : Type} `{EqDecision K}.
Implicit Types (m : list (K * V)) (k : K) (v : V).

Lemma get_delete_ne m k k' : k ≠ k' -> JsMap.get k' (JsMap.delete k m) = JsMap.get k' m.
Proof.
  intros Hne. induction m as [|[k1 v1] m IH]; simpl; [done|].
  destruct (decide (k = k1)) as [->|Hne1]; simpl.
  - by rewrite decide_False.
  - by rewrite IH.
Qed.

Lemma get_delete_eq m k : NoDup (JsMap.keys m) -> JsMap.get k (JsMap.delete k m) = None.
Proof. intros Hnd. apply get_None_keys. by apply keys_delete_gone. Qed.

Lemma get_elem m k v : NoDup (JsMap.keys m) -> (k, v) ∈ m -> JsMap.get k m = Some v.
Proof.
  unfold JsMap.keys. induction m as [|[k1 v1] m IH]; simpl.
  - intros _ Hin. by apply elem_of_nil in Hin.
  - rewrite NoDup_cons. intros [Hnotin Hnd] Hin.
    apply elem_of_cons in Hin as [[= -> ->]|Hin].
    + by rewrite decide_True.
    + rewrite decide_False; [by apply IH|].
      intros ->. apply Hnotin. apply list_elem_of_fmap. by exists (k1, v).
Qed.

Lemma delete_filter m k :
  NoDup (JsMap.keys m) ->
  JsMap.delete k m = List.filter (fun e => bool_decide (e.1 ≠ k)) m.
Proof.
  unfold JsMap.keys. induction m as [|[k1 v1] m IH]; simpl; [done|].
  rewrite NoDup_cons. intros [Hnotin Hnd].
  destruct (decide (k = k1)) as [->|Hne]; case_bool_decide; try done.
  - rewrite <- IH by done. symmetry. by apply delete_absent.
  - by rewrite IH.
Qed.

Lemma NoDup_keys_filter m (f : K * V -> bool) :
  NoDup (JsMap.keys m) -> NoDup (JsMap.keys (List.filter f m)).
Proof.
  unfold JsMap.keys. induction m as [|e m IH]; simpl; [done|].
  rewrite NoDup_cons. intros [Hnotin Hnd].
  destruct (f e); simpl; [|by apply IH].
  apply NoDup_cons. split; [|by apply IH].
  intros Hin. apply Hnotin. apply list_elem_of_fmap in Hin as (e' & -> & Hin).
  apply list_elem_of_fmap. exists e'. split; [done|].
  apply list_elem_of_In in Hin. apply filter_In in Hin as [Hin _].
  by apply list_elem_of_In.
Qed.

(** Deleting a list of keys keeps, in order, the entries under other keys. *)
Lemma fold_delete_filter m (ks : list K) :
  NoDup (JsMap.keys m) ->
  fold_left (fun m k => JsMap.delete k m) ks m =
    List.filter (fun e => bool_decide (e.1 ∉ ks)) m.
Proof.
  revert m. induction ks as [|k ks IH]; intros m Hnd; cbn [fold_left].
  - clear Hnd. induction m as [|e m IHm]; [done|]. cbn [List.filter].
    case_bool_decide as Hd; [by f_equal|].
    by apply elem_of_nil in Hd.
  - rewrite IH by (by apply NoDup_keys_delete). rewrite delete_filter by done.
    clear. induction m as [|e m IHm]; [done|]. cbn [List.filter].
    rewrite <- IHm. clear IHm.
    destruct (decide (e.1 = k)) as [He|He].
    + rewrite (bool_decide_eq_false_2 (e.1 ≠ k)) by (by intros []).
      rewrite (bool_decide_eq_false_2 (e.1 ∉ k :: ks)); [done|].
      intros Hn. apply Hn. rewrite He. apply list_elem_of_here.
    + rewrite (bool_decide_eq_true_2 (e.1 ≠ k)) by done. cbn [List.filter].
      destruct (decide (e.1 ∈ ks)) as [Hin|Hnin].
      * rewrite (bool_decide_eq_false_2 (e.1 ∉ ks)) by (by intros []).
        rewrite (bool_decide_eq_false_2 (e.1 ∉ k :: ks)); [done|].
        intros Hn. apply Hn. by apply list_elem_of_further.
      * rewrite (bool_decide_eq_true_2 (e.1 ∉ ks)) by done.
        rewrite (bool_decide_eq_true_2 (e.1 ∉ k :: ks)); [done|].
        by apply not_elem_of_cons.
Qed.
End JsMapDelete.

(** ** MemoryCollection: search, delete, deleteById, update *)

Lemma find_head_filter {A} (f : A -> bool) (l : list A) :
  List.find f l = head (List.filter f l).
Proof.
  induction l as [|x l IH]; [done|]. simpl. by destruct (f x).
Qed.

Lemma searchOne_head_search_aux (c : cref) (condition : QueryCondition) (w : World) :
  MemoryCollection.searchOne c condition w
  = head (MemoryCollection.search c condition w).
Proof. apply find_head_filter. Qed.

(** X1.  [searchOne] returns the first record of what [search] returns for
    the same condition, and nothing when [search] returns no record. *)
Theorem searchOne_head_search (c : cref) (condition : QueryCondition) (w : World) :
  MemoryCollection.searchOne c condition w
  = head (MemoryCollection.search c condition w).
Proof. apply find_head_filter. Qed.

Lemma set_map_twice c m1 m2 w : set_map c m2 (set_map c m1 w) = set_map c m2 w.
Proof.
  destruct (decide (c < length (colls w))) as [Hlt|Hge].
  - unfold set_map, coll. simpl.
    rewrite list_lookup_insert_eq by done.
    simpl. by rewrite list_insert_insert_eq.
  - by rewrite (set_map_dangling w c m1) by lia.
Qed.

(** The loop of [delete] works on the map alone. *)
Lemma delete_loop_map c (vs : list loc) m w :
  c < length (colls w) ->
  fold_left (fun w value => MemoryCollection.map_delete c (_id (obj w value)) w)
    vs (set_map c m w)
  = set_map c (fold_left (fun m value => odelete (_id (obj w value)) m) vs m) w.
Proof.
  intros Hc. revert m. induction vs as [|v vs IH]; intros m; [done|].
  cbn [fold_left]. rewrite obj_set_map.
  destruct (_id (obj w v)) as [k|]; cbn [MemoryCollection.map_delete odelete].
  - rewrite coll_set_map_eq by done. rewrite set_map_twice. apply IH.
  - apply IH.
Qed.

Lemma M_delete_map c cond w :
  c < length (colls w) ->
  MemoryCollection.delete c cond w =
    (set_map c
       (fold_left (fun m value => odelete (_id (obj w value)) m)
          (MemoryCollection.search c cond w) (MC._map (coll w c))) w,
     MemoryCollection.search c cond w).
Proof.
  intros Hc. unfold MemoryCollection.delete. f_equal.
  pose proof (delete_loop_map c (MemoryCollection.search c cond w)
                (MC._map (coll w c)) w Hc) as H.
  by rewrite set_map_same in H.
Qed.

(** With every record under its own key, the keys [delete] removes are the
    keys of the matching entries. *)
Lemma odelete_keyed c vs m w :
  keyed c w -> vs ⊆ JsMap.values (MC._map (coll w c)) ->
  NoDup (JsMap.keys (MC._map (coll w c))) ->
  fold_left (fun m value => odelete (_id (obj w value)) m) vs m
  = fold_left (fun m k => JsMap.delete k m) (map (idOf w) vs) m.
Proof.
  intros Hk Hsub Hnd. revert m. induction vs as [|v vs IH]; intros m; [done|].
  cbn [fold_left map].
  assert (Hv : exists k, _id (obj w v) = Some k).
  { assert (Hin : v ∈ JsMap.values (MC._map (coll w c)))
      by apply Hsub, list_elem_of_here.
    unfold JsMap.values in Hin. apply list_elem_of_fmap in Hin as ([k l] & -> & Hin).
    exists k. apply Hk. by apply get_elem. }
  destruct Hv as (k & Hid). unfold idOf at 2. rewrite Hid. simpl.
  apply IH. intros x Hx. by apply Hsub, list_elem_of_further.
Qed.

Lemma search_elem c cond w l :
  l ∈ MemoryCollection.search c cond w
  <-> l ∈ JsMap.values (MC._map (coll w c)) ∧ query cond (obj w l) = true.
Proof.
  unfold MemoryCollection.search.
  by rewrite list_elem_of_In, filter_In, <- list_elem_of_In.
Qed.

Lemma keyed_entry c w k l :
  keyed c w -> NoDup (JsMap.keys (MC._map (coll w c))) ->
  (k, l) ∈ MC._map (coll w c) -> _id (obj w l) = Some k.
Proof. intros Hk Hnd Hin. apply Hk. by apply get_elem. Qed.

Lemma delete_keys_matching c cond w :
  keyed c w -> NoDup (JsMap.keys (MC._map (coll w c))) ->
  forall e, e ∈ MC._map (coll w c) ->
    bool_decide (e.1 ∉ map (idOf w) (MemoryCollection.search c cond w))
    = negb (query cond (obj w e.2)).
Proof.
  intros Hk Hnd [k l] He. simpl.
  pose proof (keyed_entry _ _ _ _ Hk Hnd He) as Hid.
  destruct (query cond (obj w l)) eqn:Hq; simpl.
  - apply bool_decide_eq_false_2. intros Hn. apply Hn.
    apply list_elem_of_fmap. exists l. split.
    + unfold idOf. by rewrite Hid.
    + apply search_elem. split; [|done].
      unfold JsMap.values. apply list_elem_of_fmap. by exists (k, l).
  - apply bool_decide_eq_true_2. intros Hin.
    apply list_elem_of_fmap in Hin as (v & Hkv & Hv).
    apply search_elem in Hv as [Hv Hqv].
    unfold JsMap.values in Hv. apply list_elem_of_fmap in Hv as ([k' v'] & -> & Hin').
    simpl in *. pose proof (keyed_entry _ _ _ _ Hk Hnd Hin') as Hid'.
    unfold idOf in Hkv. rewrite Hid' in Hkv. simpl in Hkv. subst k'.
    pose proof (get_elem _ _ _ Hnd He) as G1.
    pose proof (get_elem _ _ _ Hnd Hin') as G2.
    rewrite G1 in G2. injection G2 as ->. congruence.
Qed.

Lemma filter_ext_elem {A} (f g : A -> bool) (l : list A) :
  (forall x, x ∈ l -> f x = g x) -> List.filter f l = List.filter g l.
Proof.
  intros H. apply filter_ext_in. intros x Hx. apply H. by apply list_elem_of_In.
Qed.

Lemma M_delete_filter c cond w :
  c < length (colls w) -> keyed c w ->
  NoDup (JsMap.keys (MC._map (coll w c))) ->
  MemoryCollection.delete c cond w =
    (set_map c
       (List.filter (fun e => negb (query cond (obj w e.2))) (MC._map (coll w c))) w,
     MemoryCollection.search c cond w).
Proof.
  intros Hc Hk Hnd. rewrite M_delete_map by done. f_equal. f_equal.
  rewrite (odelete_keyed c) by
    (try done; intros x Hx; by apply search_elem in Hx as [? _]).
  rewrite fold_delete_filter by done.
  apply filter_ext_elem. by apply delete_keys_matching.
Qed.

Lemma search_after_filter (f : loc -> bool) (m : list (string * loc)) :
  List.filter f (JsMap.values (List.filter (fun e => negb (f e.2)) m)) = [].
Proof.
  induction m as [|[k l] m IH]; [done|]. cbn [List.filter snd].
  destruct (f l) eqn:Hf; simpl; [done|].
  unfold JsMap.values in *. simpl. by rewrite Hf.
Qed.

(** X2.  On a collection whose records are stored under their own [_id],
    [delete(condition)] returns what [search(condition)] returns and removes
    exactly the matching entries: the others stay, in their order, no record
    object is touched, no other collection either, and a second search with
    the condition finds nothing. *)
Theorem delete_removes_matches (c : cref) (cond : QueryCondition) (w : World) :
  c < length (colls w) -> keyed c w ->
  NoDup (JsMap.keys (MC._map (coll w c))) ->
  let w' := (MemoryCollection.delete c cond w).1 in
  (MemoryCollection.delete c cond w).2 = MemoryCollection.search c cond w
  ∧ MC._map (coll w' c)
    = List.filter (fun e => negb (query cond (obj w e.2))) (MC._map (coll w c))
  ∧ heap w' = heap w
  ∧ MemoryCollection.search c cond w' = []
  ∧ (forall c', c' ≠ c -> coll w' c' = coll w c').
Proof.
  intros Hc Hk Hnd w'. subst w'. rewrite M_delete_filter by done. cbn [fst snd].
  split_and!; try done.
  - by rewrite coll_set_map_eq.
  - unfold MemoryCollection.search. rewrite coll_set_map_eq by done.
    apply (search_after_filter (fun l => query cond (obj w l))).
  - intros c' Hne. by rewrite coll_set_map_ne.
Qed.

(** X3.  [deleteById] of an id that has a record returns true and removes
    that record and no other: afterwards [getById] finds nothing under the
    id and finds under every other id what it found before; no record object
    is touched. *)
Theorem deleteById_existing (c : cref) (id : string) (l : loc) (w : World) :
  c < length (colls w) ->
  NoDup (JsMap.keys (MC._map (coll w c))) ->
  MemoryCollection.getById c id w = Some l ->
  let w' := (MemoryCollection.deleteById c id w).1 in
  (MemoryCollection.deleteById c id w).2 = true
  ∧ MemoryCollection.getById c id w' = None
  ∧ (forall id', id' ≠ id ->
       MemoryCollection.getById c id' w' = MemoryCollection.getById c id' w)
  ∧ heap w' = heap w.
Proof.
  intros Hc Hnd Hget w'. subst w'.
  unfold MemoryCollection.deleteById, MemoryCollection.getById in *.
  rewrite Hget. cbn [fst snd]. rewrite coll_set_map_eq by done.
  split_and!; try done.
  - by apply get_delete_eq.
  - intros id' Hne. by apply get_delete_ne.
Qed.

(** *** update *)

Lemma update_cons_found c item rest w k old :
  _id (obj w item) = Some k ->
  JsMap.get k (MC._map (coll w c)) = Some old ->
  MemoryCollection.update c (item :: rest) w
  = MemoryCollection.update c rest
      (set_obj old (deepAssign (obj w old) (obj w item)) w).
Proof.
  intros Hid Hget. cbn [MemoryCollection.update]. rewrite Hid, Hget.
  set (w1 := set_obj old _ w).
  change (coll w1 c) with (coll w c).
  rewrite (set_same _ _ _ Hget).
  change (coll w c) with (coll w1 c). by rewrite set_map_same.
Qed.

Lemma update_cons_missing c item rest w :
  missing c w item ->
  MemoryCollection.update c (item :: rest) w = (w, inl (NotFound (_id (obj w item)))).
Proof.
  unfold missing. intros Hm. cbn [MemoryCollection.update].
  destruct (_id (obj w item)) as [k|]; [|done]. by rewrite Hm.
Qed.

Lemma update_found_or_missing c item w :
  (exists k old, _id (obj w item) = Some k
                 ∧ JsMap.get k (MC._map (coll w c)) = Some old)
  ∨ missing c w item.
Proof.
  unfold missing. destruct (_id (obj w item)) as [k|]; [|by right].
  destruct (JsMap.get k (MC._map (coll w c))) as [old|] eqn:E; [|by right].
  left. by exists k, old.
Qed.

Lemma M_update_colls c items w :
  colls (MemoryCollection.update c items w).1 = colls w
  ∧ length (heap (MemoryCollection.update c items w).1) = length (heap w)
  ∧ uuid_next (MemoryCollection.update c items w).1 = uuid_next w.
Proof.
  revert w. induction items as [|item rest IH]; intros w; [done|].
  destruct (update_found_or_missing c item w) as [(k & old & Hid & Hget)|Hm].
  - rewrite (update_cons_found _ _ _ _ _ _ Hid Hget).
    destruct (IH (set_obj old (deepAssign (obj w old) (obj w item)) w))
      as (H1 & H2 & H3).
    rewrite H1, H2, H3. simpl. by rewrite length_insert.
  - by rewrite update_cons_missing.
Qed.

Lemma M_update_ids c items w :
  keyed c w ->
  forall l, _id (obj (MemoryCollection.update c items w).1 l) = _id (obj w l).
Proof.
  revert w. induction items as [|item rest IH]; intros w Hk l; [done|].
  destruct (update_found_or_missing c item w) as [(k & old & Hid & Hget)|Hm].
  - rewrite (update_cons_found _ _ _ _ _ _ Hid Hget).
    set (w1 := set_obj old _ w).
    assert (Hids : forall l, _id (obj w1 l) = _id (obj w l)).
    { intros l'. apply id_set_obj_same. simpl. rewrite Hid. symmetry. by apply Hk. }
    rewrite IH; [apply Hids|].
    intros k' l'. change (coll w1 c) with (coll w c). rewrite Hids. apply Hk.
  - by rewrite update_cons_missing.
Qed.

Lemma M_update_others c items w l :
  keyed c w -> ¬ targeted c w items l ->
  obj (MemoryCollection.update c items w).1 l = obj w l.
Proof.
  revert w. induction items as [|item rest IH]; intros w Hk Hnt; [done|].
  destruct (update_found_or_missing c item w) as [(k & old & Hid & Hget)|Hm].
  - rewrite (update_cons_found _ _ _ _ _ _ Hid Hget).
    set (w1 := set_obj old _ w).
    assert (Hids : forall l, _id (obj w1 l) = _id (obj w l)).
    { intros l'. apply id_set_obj_same. simpl. rewrite Hid. symmetry. by apply Hk. }
    assert (Hne : old ≠ l).
    { intros ->. apply Hnt. exists item, k. split; [apply list_elem_of_here | by split]. }
    rewrite IH.
    + subst w1. by rewrite obj_set_obj_ne.
    + intros k' l'. change (coll w1 c) with (coll w c). rewrite Hids. apply Hk.
    + intros (it & k' & Hin & Hid' & Hget'). apply Hnt.
      exists it, k'. split; [by apply list_elem_of_further|].
      rewrite Hids in Hid'. done.
  - by rewrite update_cons_missing.
Qed.

(** X4.  [update] never adds, removes, re-keys or reorders an entry of a
    collection and allocates nothing, whether it succeeds or throws.  On a
    collection whose records are stored under their own [_id] it changes no
    [_id], and it leaves every object alone that is not the stored record of
    one of its items: the merge goes into the stored object itself. *)
Theorem update_in_place (c : cref) (items : list loc) (w : World) :
  let w' := (MemoryCollection.update c items w).1 in
  colls w' = colls w
  ∧ length (heap w') = length (heap w)
  ∧ (keyed c w ->
       (forall l, _id (obj w' l) = _id (obj w l))
       ∧ (forall l, ¬ targeted c w items l -> obj w' l = obj w l)
       ∧ keyed c w').
Proof.
  intros w'. subst w'.
  destruct (M_update_colls c items w) as (Hc & Hh & _).
  split_and!; [done | done |]. intros Hk.
  split_and!.
  - by apply M_update_ids.
  - intros l Hl. by apply M_update_others.
  - intros k l. unfold coll. rewrite Hc. fold (coll w c).
    rewrite M_update_ids by done. apply Hk.
Qed.

Lemma update_app c xs ys w w1 :
  MemoryCollection.update c xs w = (w1, inr ()) ->
  MemoryCollection.update c (xs ++ ys) w = MemoryCollection.update c ys w1.
Proof.
  revert w. induction xs as [|x xs IH]; intros w Hup.
  - simpl in Hup. by injection Hup as ->.
  - destruct (update_found_or_missing c x w) as [(k & old & Hid & Hget)|Hm].
    + rewrite <- app_comm_cons.
      rewrite (update_cons_found c x (xs ++ ys) w k old Hid Hget).
      rewrite (update_cons_found c x xs w k old Hid Hget) in Hup. by apply IH.
    + by rewrite update_cons_missing in Hup.
Qed.

(** X5.  [update] is not atomic.  When the items before a failing one were
    merged, the error comes with the world those merges left: they are not
    taken back, and the items after the failing one are not looked at. *)
Theorem update_keeps_merges_before_failure
    (c : cref) (xs : list loc) (bad : loc) (rest : list loc) (w w1 : World) :
  MemoryCollection.update c xs w = (w1, inr ()) ->
  missing c w1 bad ->
  MemoryCollection.update c (xs ++ bad :: rest) w
  = (w1, inl (NotFound (_id (obj w1 bad)))).
Proof.
  intros Hup Hm. rewrite (update_app _ _ _ _ _ Hup).
  by apply update_cons_missing.
Qed.

(** *** The invariant of a collection *)

Lemma get_Some_key {V} (m : list (string * V)) k v :
  JsMap.get k m = Some v -> k ∈ JsMap.keys m.
Proof.
  intros Hg. destruct (decide (k ∈ JsMap.keys m)) as [|Hn]; [done|].
  apply get_None_keys in Hn. congruence.
Qed.

Lemma well_keyed_set c w w1 k item :
  well_keyed c w -> k ≠ "" ->
  MC._map (coll w1 c) = JsMap.set k item (MC._map (coll w c)) ->
  _id (obj w1 item) = Some k ->
  (forall l, l ≠ item -> obj w1 l = obj w l) ->
  (falsy (_id (obj w item)) = false -> obj w1 item = obj w item) ->
  well_keyed c w1.
Proof.
  intros (Hk & Hnd & He) Hne Hmap Hid Hoth Hsame.
  split_and!.
  - intros k' l. rewrite Hmap. destruct (decide (k = k')) as [<-|Hkk].
    + rewrite get_set_eq. by intros [= <-].
    + rewrite get_set_ne by done. intros Hg.
      pose proof (Hk _ _ Hg) as Hidl.
      destruct (decide (l = item)) as [->|Hl]; [|by rewrite Hoth].
      rewrite Hsame; [done|]. apply falsy_false. exists k'. split; [done|].
      intros ->. apply He. by eapply get_Some_key.
  - rewrite Hmap. by apply NoDup_keys_set.
  - rewrite Hmap. intros Hin. by destruct (keys_set _ _ _ _ Hin) as [?|?].
Qed.

Lemma save1_well_keyed c item w :
  c < length (colls w) -> item < length (heap w) ->
  uuid_src w (uuid_next w) ≠ "" ->
  well_keyed c w -> well_keyed c (MemoryCollection.save1 c item w).
Proof.
  intros Hc Hl Hu Hwk. destruct (falsy (_id (obj w item))) eqn:Hf.
  - rewrite save1_falsy by done. cbv zeta.
    eapply (well_keyed_set c w _ (uuid_src w (uuid_next w)) item); try done.
    + by rewrite coll_set_map_eq.
    + rewrite obj_set_map. by rewrite obj_set_obj_eq.
    + intros l Hne. rewrite obj_set_map. by rewrite obj_set_obj_ne.
    + intros Hf'. congruence.
  - rewrite save1_truthy by done.
    pose proof Hf as Hf'. apply falsy_false in Hf' as (k & Hid & Hk).
    unfold idOf. rewrite Hid. simpl.
    eapply (well_keyed_set c w _ k item); try done.
    by rewrite coll_set_map_eq.
Qed.

Lemma save_well_keyed c items w :
  c < length (colls w) ->
  (forall item, item ∈ items -> item < length (heap w)) ->
  (forall n, uuid_next w ≤ n -> uuid_src w n ≠ "") ->
  well_keyed c w -> well_keyed c (MemoryCollection.save c items w).1.
Proof.
  unfold MemoryCollection.save. cbn [fst].
  revert w. induction items as [|item rest IH]; intros w Hc Hl Hu Hwk; [done|].
  cbn [fold_left].
  destruct (save1_sizes c item w) as (Hh1 & Hc1 & Hn1).
  destruct (save1_control c item w) as (_&_&_&_&Hsrc).
  apply IH.
  - by rewrite Hc1.
  - intros it Hin. rewrite Hh1. by apply Hl, list_elem_of_further.
  - intros n Hn. rewrite Hsrc. apply Hu. lia.
  - apply save1_well_keyed; [done | apply Hl, list_elem_of_here | by apply Hu | done].
Qed.

Lemma well_keyed_sub c w w' :
  well_keyed c w -> heap w' = heap w ->
  (forall e, e ∈ MC._map (coll w' c) -> e ∈ MC._map (coll w c)) ->
  NoDup (JsMap.keys (MC._map (coll w' c))) ->
  well_keyed c w'.
Proof.
  intros (Hk & Hnd & He) Hh Hsub Hnd'. split_and!; [|done|].
  - intros k l Hg. unfold obj. rewrite Hh. fold (obj w l).
    apply Hk, get_elem; [done|]. by apply Hsub, get_Some_elem.
  - intros Hin. apply He. unfold JsMap.keys in *.
    apply list_elem_of_fmap in Hin as (e & -> & Hin).
    apply list_elem_of_fmap. exists e. split; [done | by apply Hsub].
Qed.

(** X6.  The invariant of a collection (every record under its own,
    non-empty [_id]; no key twice) is kept by [save] of allocated objects
    when [v4()] returns non-empty identifiers, by [delete], by [deleteById]
    and by [update], whether it succeeds or throws. *)
Theorem well_keyed_preserved (c : cref) (w : World) :
  c < length (colls w) -> well_keyed c w ->
  (forall items,
     (forall item, item ∈ items -> item < length (heap w)) ->
     (forall n, uuid_next w ≤ n -> uuid_src w n ≠ "") ->
     well_keyed c (MemoryCollection.save c items w).1)
  ∧ (forall cond, well_keyed c (MemoryCollection.delete c cond w).1)
  ∧ (forall id, well_keyed c (MemoryCollection.deleteById c id w).1)
  ∧ (forall items, well_keyed c (MemoryCollection.update c items w).1).
Proof.
  intros Hc Hwk. pose proof Hwk as (Hk & Hnd & He). split_and!.
  - intros items Hl Hu. by apply save_well_keyed.
  - intros cond. rewrite M_delete_filter by done. cbn [fst].
    apply (well_keyed_sub c w); [done | done | |].
    + rewrite coll_set_map_eq by done. intros e Hin.
      apply list_elem_of_In in Hin. apply filter_In in Hin as [Hin _].
      by apply list_elem_of_In.
    + rewrite coll_set_map_eq by done. by apply NoDup_keys_filter.
  - intros id. unfold MemoryCollection.deleteById.
    destruct (JsMap.get id (MC._map (coll w c))); [|done]. cbn [fst].
    apply (well_keyed_sub c w); [done | done | |].
    + rewrite coll_set_map_eq by done. intros [k' l'] Hin. by eapply elem_of_delete.
    + rewrite coll_set_map_eq by done. by apply NoDup_keys_delete.
  - intros items.
    destruct (M_update_colls c items w) as (Hcs & _).
    split_and!.
    + intros k l. unfold coll. rewrite Hcs. fold (coll w c).
      rewrite M_update_ids by done. apply Hk.
    + unfold coll. by rewrite Hcs.
    + unfold coll. by rewrite Hcs.
Qed.

(** ** Transaction: delete and deleteById, rolled back *)

Lemma get_fold_delete {V} (m : list (string * V)) (ks : list string) k :
  NoDup (JsMap.keys m) ->
  JsMap.get k (fold_left (fun m k => JsMap.delete k m) ks m)
  = if decide (k ∈ ks) then None else JsMap.get k m.
Proof.
  revert m. induction ks as [|k1 ks IH]; intros m Hnd; cbn [fold_left].
  - rewrite decide_False; [done | apply not_elem_of_nil].
  - rewrite IH by (by apply NoDup_keys_delete).
    destruct (decide (k ∈ ks)) as [Hin|Hnin].
    + rewrite decide_True; [done | by apply list_elem_of_further].
    + destruct (decide (k = k1)) as [->|Hne].
      * rewrite decide_True by apply list_elem_of_here. by apply get_delete_eq.
      * rewrite decide_False by (by apply not_elem_of_cons).
        by apply get_delete_ne.
Qed.

(** Saving back, under their keys, records that a map [m0] held. *)
Lemma get_fold_set (key : loc -> string) (m0 m : list (string * loc))
    (ls : list loc) k :
  (forall l, l ∈ ls -> JsMap.get (key l) m0 = Some l) ->
  JsMap.get k (fold_left (fun m l => JsMap.set (key l) l m) ls m)
  = if decide (k ∈ map key ls) then JsMap.get k m0 else JsMap.get k m.
Proof.
  revert m. induction ls as [|l ls IH]; intros m Hls; cbn [fold_left map].
  - rewrite decide_False; [done | apply not_elem_of_nil].
  - rewrite IH by (intros l' Hl'; by apply Hls, list_elem_of_further).
    destruct (decide (k ∈ map key ls)) as [Hin|Hnin].
    + rewrite decide_True; [done | by apply list_elem_of_further].
    + destruct (decide (k = key l)) as [->|Hne].
      * rewrite decide_True by apply list_elem_of_here.
        rewrite get_set_eq. symmetry. apply Hls, list_elem_of_here.
      * rewrite decide_False by (by apply not_elem_of_cons).
        by apply get_set_ne.
Qed.

(** [save] of records that all carry an [_id] works on the map alone. *)
Lemma save_loop_map c (items : list loc) m w :
  c < length (colls w) ->
  (forall item, item ∈ items -> falsy (_id (obj w item)) = false) ->
  fold_left (fun w item => MemoryCollection.save1 c item w) items (set_map c m w)
  = set_map c (fold_left (fun m item => JsMap.set (idOf w item) item m) items m) w.
Proof.
  intros Hc. revert m. induction items as [|item rest IH]; intros m Ht; [done|].
  cbn [fold_left].
  rewrite save1_truthy by (rewrite obj_set_map; apply Ht, list_elem_of_here).
  rewrite coll_set_map_eq by done. rewrite set_map_twice.
  unfold idOf at 1. rewrite obj_set_map. fold (idOf w item).
  apply IH. intros it Hin. by apply Ht, list_elem_of_further.
Qed.

Lemma save_truthy_map c items w :
  c < length (colls w) ->
  (forall item, item ∈ items -> falsy (_id (obj w item)) = false) ->
  (MemoryCollection.save c items w).1
  = set_map c (fold_left (fun m item => JsMap.set (idOf w item) item m) items
                 (MC._map (coll w c))) w.
Proof.
  intros Hc Ht. unfold MemoryCollection.save. cbn [fst].
  pose proof (save_loop_map c items (MC._map (coll w c)) w Hc Ht) as H.
  by rewrite set_map_same in H.
Qed.

Lemma fold_left_fn_ext {A B} (f g : A -> B -> A) (l : list B) (a : A) :
  (forall a b, f a b = g a b) -> fold_left f l a = fold_left g l a.
Proof.
  intros H. revert a. induction l as [|b l IH]; intros a; [done|].
  simpl. by rewrite H, IH.
Qed.

(** A stored record of a well-keyed collection carries its key. *)
Lemma well_keyed_value c w l :
  well_keyed c w -> l ∈ JsMap.values (MC._map (coll w c)) ->
  JsMap.get (idOf w l) (MC._map (coll w c)) = Some l
  ∧ falsy (_id (obj w l)) = false.
Proof.
  intros (Hk & Hnd & He) Hin.
  unfold JsMap.values in Hin. apply list_elem_of_fmap in Hin as ([k l'] & -> & Hin).
  simpl. pose proof (get_elem _ _ _ Hnd Hin) as Hg.
  pose proof (Hk _ _ Hg) as Hid. split.
  - unfold idOf. by rewrite Hid.
  - apply falsy_false. exists k. split; [done|].
    intros ->. apply He. by eapply get_Some_key.
Qed.

(** Saving back the records a delete took out of a well-keyed collection
    gives every id the record it had. *)
Lemma resave_restores c (result : list loc) wd w :
  c < length (colls wd) -> well_keyed c w ->
  heap wd = heap w ->
  result ⊆ JsMap.values (MC._map (coll w c)) ->
  MC._map (coll wd c)
    = fold_left (fun m k => JsMap.delete k m) (map (idOf w) result)
        (MC._map (coll w c)) ->
  let w' := (MemoryCollection.save c result wd).1 in
  heap w' = heap w
  ∧ (forall id, MemoryCollection.getById c id w' = MemoryCollection.getById c id w)
  ∧ (forall c', c' ≠ c -> coll w' c' = coll wd c').
Proof.
  intros Hc Hwk Hh Hsub Hmap w'. subst w'.
  assert (Hobj : forall l, obj wd l = obj w l).
  { intros l. unfold obj. by rewrite Hh. }
  rewrite save_truthy_map; [|done|].
  2:{ intros item Hin. rewrite Hobj. by apply (well_keyed_value c w), Hsub. }
  split_and!; [done | |].
  - intros id. unfold MemoryCollection.getById.
    rewrite coll_set_map_eq by done.
    rewrite (fold_left_fn_ext _ (fun m item => JsMap.set (idOf w item) item m)).
    2:{ intros m item. unfold idOf. by rewrite Hobj. }
    rewrite (get_fold_set (idOf w) (MC._map (coll w c))).
    2:{ intros l Hl. by apply (well_keyed_value c w), Hsub. }
    rewrite Hmap. rewrite get_fold_delete by apply Hwk.
    by destruct (decide (id ∈ map (idOf w) result)).
  - intros c' Hne. by rewrite coll_set_map_ne.
Qed.

(** [delete] through the transaction: the backend's [delete], and one
    closure more on the log when something was deleted while active. *)
Lemma T_delete_spec this cond w :
  this < length (txs w) ->
  let c := TX.collection (tx w this) in
  let w1 := (MemoryCollection.delete c cond w).1 in
  let w2 := (Transaction.delete this cond w).1 in
  same_data w1 w2
  ∧ (Transaction.delete this cond w).2 = MemoryCollection.search c cond w
  ∧ TX._rollbackFns (tx w2 this) =
      TX._rollbackFns (tx w this)
      ++ (if (0 <? length (MemoryCollection.search c cond w)) && TX._begin (tx w this)
          then [RbSave c (MemoryCollection.search c cond w)] else []).
Proof.
  intros Hlt c w1 w2. subst w2. unfold Transaction.delete. fold c.
  change (MemoryCollection.delete c cond w) with (w1, MemoryCollection.search c cond w).
  cbn [fst snd].
  pose proof (delete_control c cond w) as Hctl. fold w1 in Hctl.
  pose proof (same_control_tx _ _ this Hctl) as Htx.
  destruct Hctl as (Htxs & _).
  unfold Transaction.logging. rewrite Htx.
  destruct ((0 <? length _) && TX._begin (tx w this)).
  - unfold Transaction.push. rewrite Htx.
    rewrite tx_set_tx_eq by (by rewrite Htxs). by split_and!.
  - rewrite Htx, app_nil_r. by split_and!.
Qed.

Lemma rollback_data this w :
  let w1 := fold_left (fun w f => Transaction.call f w)
              (rev (TX._rollbackFns (tx w this))) w in
  same_data w1 (Transaction.rollback this w).1.
Proof.
  intros w1. rewrite rollback_unfold. cbn [fst]. fold w1.
  rewrite end_world. by repeat split.
Qed.

(** X7.  Records deleted by condition through an active transaction come
    back with the rollback: on a well-keyed collection, the deleted ids have
    no record after the delete, and after the rollback [getById] returns for
    every id the record object it returned before the delete.  No record
    object is changed and the other collections are as they were.  (The
    restored entries are at the end of the iteration order.) *)
Theorem delete_rollback_restores (this : tref) (cond : QueryCondition) (w : World) :
  let c := TX.collection (tx w this) in
  this < length (txs w) -> c < length (colls w) ->
  TX._begin (tx w this) = true -> TX._rollbackFns (tx w this) = [] ->
  well_keyed c w ->
  let w1 := (Transaction.delete this cond w).1 in
  let w' := (Transaction.rollback this w1).1 in
  (Transaction.delete this cond w).2 = MemoryCollection.search c cond w
  ∧ (forall l, l ∈ MemoryCollection.search c cond w ->
       MemoryCollection.getById c (idOf w l) w1 = None)
  ∧ heap w' = heap w
  ∧ (forall id, MemoryCollection.getById c id w' = MemoryCollection.getById c id w)
  ∧ (forall c', c' ≠ c -> coll w' c' = coll w c').
Proof.
  intros c Hlt Hc Hbeg Hlog Hwk w1 w'.
  pose proof Hwk as (Hk & Hnd & He).
  destruct (T_delete_spec this cond w Hlt) as (Hd & Hres & Hlog1).
  fold c in Hd, Hres, Hlog1. fold w1 in Hd, Hlog1.
  set (result := MemoryCollection.search c cond w) in *.
  assert (Hsub : result ⊆ JsMap.values (MC._map (coll w c))).
  { intros x Hx. by apply search_elem in Hx as [? _]. }
  rewrite M_delete_map in Hd by done. cbn [fst] in Hd. fold result in Hd.
  rewrite (odelete_keyed c) in Hd by done.
  set (m1 := fold_left _ (map (idOf w) result) _) in Hd.
  assert (Hmap1 : MC._map (coll w1 c) = m1).
  { rewrite (same_data_coll _ _ _ Hd). by rewrite coll_set_map_eq. }
  assert (Hh1 : heap w1 = heap w) by (by destruct Hd as (-> & _)).
  assert (Hc1 : c < length (colls w1)).
  { destruct Hd as (_ & -> & _). simpl. by rewrite length_insert. }
  assert (Hoth1 : forall c', c' ≠ c -> coll w1 c' = coll w c').
  { intros c' Hne. rewrite (same_data_coll _ _ _ Hd). by rewrite coll_set_map_ne. }
  (* the rollback saves the deleted records back *)
  pose proof (rollback_data this w1) as Hrd. cbv zeta in Hrd.
  rewrite Hlog1, Hlog, Hbeg, app_nil_l, andb_true_r in Hrd.
  assert (Hcall : fold_left (fun w f => Transaction.call f w)
            (rev (if 0 <? length result then [RbSave c result] else [])) w1
          = (MemoryCollection.save c result w1).1).
  { destruct result as [|x result']; [done|]. done. }
  rewrite Hcall in Hrd. fold w' in Hrd.
  destruct (resave_restores c result w1 w Hc1 Hwk Hh1 Hsub Hmap1)
    as (Hh' & Hget' & Hoth').
  split_and!.
  - done.
  - intros l Hl. unfold MemoryCollection.getById. rewrite Hmap1. subst m1.
    rewrite get_fold_delete by done.
    rewrite decide_True; [done|]. apply list_elem_of_fmap. by exists l.
  - destruct Hrd as (-> & _). done.
  - intros id. unfold MemoryCollection.getById in *.
    rewrite (same_data_coll _ _ _ Hrd). apply Hget'.
  - intros c' Hne. rewrite (same_data_coll _ _ _ Hrd).
    rewrite Hoth' by done. by apply Hoth1.
Qed.

(** [deleteById] through an active transaction, for an id with a record. *)
Lemma T_deleteById_found this id data w :
  this < length (txs w) ->
  let c := TX.collection (tx w this) in
  c < length (colls w) ->
  MemoryCollection.getById c id w = Some data ->
  TX._begin (tx w this) = true ->
  let w1 := (Transaction.deleteById this id w).1 in
  (Transaction.deleteById this id w).2 = true
  ∧ heap w1 = heap w
  ∧ colls w1 = colls (set_map c (JsMap.delete id (MC._map (coll w c))) w)
  ∧ TX._rollbackFns (tx w1 this) = TX._rollbackFns (tx w this) ++ [RbSave c [data]].
Proof.
  intros Hlt c Hc Hget Hbeg w1. subst w1.
  unfold Transaction.deleteById. fold c. rewrite Hget, Hbeg.
  unfold MemoryCollection.deleteById, MemoryCollection.getById in *.
  set (wp := Transaction.push this (RbSave c [data]) w).
  change (coll wp c) with (coll w c). rewrite Hget. cbn [fst snd].
  split_and!; try done.
  change (tx (set_map c (JsMap.delete id (MC._map (coll w c))) wp) this)
    with (tx wp this).
  subst wp. unfold Transaction.push. by rewrite tx_set_tx_eq.
Qed.

(** X8.  A record deleted by id through an active transaction comes back
    with the rollback: [deleteById] returns true and the id has no record;
    after the rollback [getById] returns for every id the record object it
    returned before, unchanged. *)
Theorem deleteById_rollback_restores
    (this : tref) (id : string) (data : loc) (w : World) :
  let c := TX.collection (tx w this) in
  this < length (txs w) -> c < length (colls w) ->
  TX._begin (tx w this) = true -> TX._rollbackFns (tx w this) = [] ->
  well_keyed c w ->
  MemoryCollection.getById c id w = Some data ->
  let w1 := (Transaction.deleteById this id w).1 in
  let w' := (Transaction.rollback this w1).1 in
  (Transaction.deleteById this id w).2 = true
  ∧ MemoryCollection.getById c id w1 = None
  ∧ heap w' = heap w
  ∧ (forall id', MemoryCollection.getById c id' w' = MemoryCollection.getById c id' w)
  ∧ (forall c', c' ≠ c -> coll w' c' = coll w c').
Proof.
  intros c Hlt Hc Hbeg Hlog Hwk Hget w1 w'.
  pose proof Hwk as (Hk & Hnd & He).
  destruct (T_deleteById_found this id data w Hlt Hc Hget Hbeg)
    as (Hret & Hh1 & Hc1 & Hlog1).
  fold c in Hc1, Hlog1. fold w1 in Hh1, Hc1, Hlog1.
  assert (Hid : idOf w data = id).
  { unfold idOf. unfold MemoryCollection.getById in Hget. by rewrite (Hk _ _ Hget). }
  assert (Hmap1 : MC._map (coll w1 c) = JsMap.delete id (MC._map (coll w c))).
  { unfold coll at 1. rewrite Hc1.
    change (MC._map (coll (set_map c (JsMap.delete id (MC._map (coll w c))) w) c)
            = JsMap.delete id (MC._map (coll w c))).
    by rewrite coll_set_map_eq. }
  assert (Hlen1 : c < length (colls w1)).
  { rewrite Hc1. simpl. by rewrite length_insert. }
  assert (Hoth1 : forall c', c' ≠ c -> coll w1 c' = coll w c').
  { intros c' Hne. unfold coll at 1. rewrite Hc1.
    change (coll (set_map c (JsMap.delete id (MC._map (coll w c))) w) c' = coll w c').
    by rewrite coll_set_map_ne. }
  pose proof (rollback_data this w1) as Hrd. cbv zeta in Hrd.
  rewrite Hlog1, Hlog in Hrd. cbn [app rev fold_left Transaction.call] in Hrd.
  fold w' in Hrd.
  destruct (resave_restores c [data] w1 w Hlen1 Hwk Hh1) as (Hh' & Hget' & Hoth').
  { intros x Hx. apply list_elem_of_singleton in Hx as ->.
    unfold JsMap.values. apply list_elem_of_fmap. exists (id, data).
    split; [done|]. by apply get_Some_elem. }
  { cbn [map fold_left]. by rewrite Hid. }
  split_and!.
  - done.
  - unfold MemoryCollection.getById. rewrite Hmap1. by apply get_delete_eq.
  - destruct Hrd as (-> & _). done.
  - intros id'. unfold MemoryCollection.getById in *.
    rewrite (same_data_coll _ _ _ Hrd). apply Hget'.
  - intros c' Hne. rewrite (same_data_coll _ _ _ Hrd).
    rewrite Hoth' by done. by apply Hoth1.
Qed.

(** ** The collection operations do not read the transactions *)

Lemma with_control_same_data w w' : same_data w w' -> w' = with_control w' w.
Proof.
  intros (Hh & Hc & Hs & Hn). destruct w, w'. simpl in *. by subst.
Qed.

Lemma same_data_with_control x w : same_data w (with_control x w).
Proof. by repeat split. Qed.

Lemma same_data_sym w w' : same_data w w' -> same_data w' w.
Proof. intros (?&?&?&?). by repeat split. Qed.

Lemma same_data_trans w1 w2 w3 : same_data w1 w2 -> same_data w2 w3 -> same_data w1 w3.
Proof. intros (?&?&?&?) (?&?&?&?). repeat split; congruence. Qed.

Lemma save1_with_control x c item w :
  MemoryCollection.save1 c item (with_control x w)
  = with_control x (MemoryCollection.save1 c item w).
Proof.
  unfold MemoryCollection.save1, v4.
  change (obj (with_control x w) item) with (obj w item).
  destruct (_id (obj w item)) as [k|]; [destruct (bool_decide (k = ""))|]; done.
Qed.

Lemma map_delete_with_control x c key w :
  MemoryCollection.map_delete c key (with_control x w)
  = with_control x (MemoryCollection.map_delete c key w).
Proof. by destruct key. Qed.

Lemma fold_with_control {A} (f : World -> A -> World) (l : list A) x w :
  (forall w a, f (with_control x w) a = with_control x (f w a)) ->
  fold_left f l (with_control x w) = with_control x (fold_left f l w).
Proof.
  intros Hf. revert w. induction l as [|a l IH]; intros w; [done|].
  simpl. by rewrite Hf, IH.
Qed.

Lemma call_with_control x f w :
  Transaction.call f (with_control x w) = with_control x (Transaction.call f w).
Proof.
  destruct f as [c result|c result]; unfold Transaction.call.
  - unfold MemoryCollection.save. cbn [fst].
    apply fold_with_control. intros; apply save1_with_control.
  - unfold MemoryCollection.delete. cbn [fst].
    change (MemoryCollection.search c
              (QIdIn (map (fun item => _id (obj (with_control x w) item)) result))
              (with_control x w))
      with (MemoryCollection.search c
              (QIdIn (map (fun item => _id (obj w item)) result)) w).
    apply (fold_with_control
             (fun w value => MemoryCollection.map_delete c (_id (obj w value)) w)).
    intros w0 a. apply map_delete_with_control.
Qed.

(** Logged closures do the same to the records and collections whatever the
    transactions, registry and timers are. *)
Lemma calls_same_data (fs : list RollbackFn) w w' :
  same_data w w' ->
  same_data (fold_left (fun w f => Transaction.call f w) fs w)
            (fold_left (fun w f => Transaction.call f w) fs w').
Proof.
  intros Hd. rewrite (with_control_same_data _ _ Hd).
  rewrite (fold_with_control (fun w f => Transaction.call f w)).
  - apply same_data_with_control.
  - intros w0 f. apply call_with_control.
Qed.

(** ** Transaction: the life cycle *)

Lemma set_tx_same this w : set_tx this (tx w this) w = w.
Proof.
  unfold set_tx, tx. destruct (txs w !! this) as [x|] eqn:E; simpl.
  - rewrite list_insert_id by done. by destruct w.
  - apply lookup_ge_None_1 in E. rewrite list_insert_ge by done. by destruct w.
Qed.

Lemma end_fixpoint this w :
  TX._begin (tx w this) = false -> TX._timeoutHandler (tx w this) = None ->
  registry w !! TX.id (tx w this) = None ->
  Transaction.end_ this w = w.
Proof.
  intros Hb Hh Hr. rewrite end_world, Hh.
  assert (He : ended (tx w this) = tx w this).
  { unfold ended. destruct (tx w this). simpl in *. by subst. }
  rewrite He. rewrite delete_id by done.
  pose proof (set_tx_same this w) as Hs. unfold set_tx, set_txs in Hs.
  destruct w. simpl in *. by injection Hs as ->.
Qed.

(** X9.  [end()] twice is [end()] once, and so is [rollback()]: after a
    rollback the log is empty and the transaction is ended, so a second
    rollback calls nothing and changes nothing. *)
Theorem end_and_rollback_idempotent (this : tref) (w : World) :
  Transaction.end_ this (Transaction.end_ this w) = Transaction.end_ this w
  ∧ Transaction.rollback this (Transaction.rollback this w).1
    = ((Transaction.rollback this w).1, inr ()).
Proof.
  assert (Hend : forall w, Transaction.end_ this (Transaction.end_ this w)
                           = Transaction.end_ this w).
  { intros w0. apply end_fixpoint; rewrite tx_after_end; try done.
    rewrite end_world. simpl. apply lookup_delete_eq. }
  split; [apply Hend|].
  rewrite (rollback_unfold this w). cbn [fst].
  set (w1 := fold_left _ _ w).
  set (w2 := set_tx this (Transaction.set_rollbackFns [] (tx w1 this)) w1).
  assert (Hlog : TX._rollbackFns (tx (Transaction.end_ this w2) this) = []).
  { rewrite tx_after_end. simpl. subst w2.
    destruct (decide (this < length (txs w1))) as [Hlt|Hge].
    - by rewrite tx_set_tx_eq.
    - apply Nat.nlt_ge in Hge. rewrite set_tx_dangling by done.
      by rewrite tx_dangling. }
  rewrite rollback_unfold. rewrite Hlog. cbn [rev fold_left].
  f_equal. rewrite <- Hlog.
  assert (Hx : Transaction.set_rollbackFns
                 (TX._rollbackFns (tx (Transaction.end_ this w2) this))
                 (tx (Transaction.end_ this w2) this)
               = tx (Transaction.end_ this w2) this).
  { by destruct (tx (Transaction.end_ this w2) this). }
  rewrite Hx, set_tx_same. apply Hend.
Qed.

(** X10.  [begin()] twice is [begin()] once: the second call finds the timer
    and returns, so the deadline is not moved and no second timer is
    armed. *)
Theorem begin_idempotent (this : tref) (w : World) :
  this < length (txs w) ->
  Transaction.begin this (Transaction.begin this w) = Transaction.begin this w.
Proof.
  intros Hlt. destruct (TX._timeoutHandler (tx w this)) as [h|] eqn:Hh.
  - assert (Hb : Transaction.begin this w = w)
      by (unfold Transaction.begin; by rewrite Hh).
    by rewrite !Hb.
  - destruct (begin_arms this w Hlt Hh) as (Hh' & _).
    unfold Transaction.begin at 1. by rewrite Hh'.
Qed.

Lemma begin_frame this w :
  registry (Transaction.begin this w) = registry w
  ∧ length (txs (Transaction.begin this w)) = length (txs w)
  ∧ same_data w (Transaction.begin this w)
  ∧ TX._rollbackFns (tx (Transaction.begin this w) this) = TX._rollbackFns (tx w this).
Proof.
  unfold Transaction.begin.
  destruct (TX._timeoutHandler (tx w this)) eqn:Hh; [by repeat split|].
  simpl. rewrite !length_insert. split_and!; try done.
  destruct (decide (this < length (txs w))) as [Hlt|Hge].
  - unfold tx at 1. simpl.
    rewrite list_lookup_insert_eq by (rewrite length_insert; lia). simpl.
    unfold tx at 1. simpl. by rewrite list_lookup_insert_eq by lia.
  - apply Nat.nlt_ge in Hge. unfold tx. simpl.
    rewrite !list_insert_ge by (rewrite ?length_insert; lia). done.
Qed.

(** X11.  [begin()] after [end()] makes the transaction active again and
    arms a new 30 second timer, with the log as [end()] left it, but does
    not put it back in the registry: [Transaction.get] under its id will
    not return it. *)
Theorem begin_after_end_unregistered (this : tref) (c : cref) (w : World) :
  this < length (txs w) ->
  let w' := Transaction.begin this (Transaction.end_ this w) in
  TX._begin (tx w' this) = true
  ∧ TX._timeoutHandler (tx w' this) = Some (length (timers w))
  ∧ timers w' !! length (timers w) = Some (Some (this, 30000%Z))
  ∧ TX._rollbackFns (tx w' this) = TX._rollbackFns (tx w this)
  ∧ registry w' !! TX.id (tx w this) = None
  ∧ (Transaction.get (TX.id (tx w this)) c w').2 ≠ ATransaction this.
Proof.
  intros Hlt w'. subst w'.
  set (we := Transaction.end_ this w).
  assert (Hlen : length (txs we) = length (txs w)
                 ∧ length (timers we) = length (timers w)).
  { subst we. rewrite end_world. simpl. rewrite length_insert.
    by destruct (TX._timeoutHandler (tx w this)); rewrite ?length_insert. }
  destruct Hlen as (Hlt1 & Htm1).
  assert (Hxe : tx we this = ended (tx w this)) by apply tx_after_end.
  destruct (begin_arms this we) as (Hh & Hb & Ht); [lia | by rewrite Hxe |].
  rewrite Htm1 in Hh, Ht.
  destruct (begin_frame this we) as (Hr & Htxs & _ & Hlog).
  assert (Hreg : registry (Transaction.begin this we) !! TX.id (tx w this) = None).
  { rewrite Hr. subst we. rewrite end_world. cbn [registry]. apply lookup_delete_eq. }
  split_and!; try done.
  - by rewrite Hlog, Hxe.
  - destruct (Transaction.lookup (TX.id (tx w this)) (Transaction.begin this we))
      as [r|] eqn:Hl.
    + rewrite (get_found _ _ _ _ Hl). cbn [snd]. intros ->.
      apply lookup_transaction in Hl. by rewrite Hreg in Hl.
    + rewrite get_new by done. cbn [snd]. intros [= Heq]. lia.
Qed.

(** X12.  A cleared timer does nothing: when the timer that [end()] or
    [rollback()] cleared comes up, the world stays as it is. *)
Theorem cleared_timer_is_inert (this : tref) (h : timer) (w : World) :
  TX._timeoutHandler (tx w this) = Some h ->
  Transaction.fire h (Transaction.end_ this w) = Transaction.end_ this w
  ∧ Transaction.fire h (Transaction.rollback this w).1
    = (Transaction.rollback this w).1.
Proof.
  intros Hh.
  assert (Hend : forall w, TX._timeoutHandler (tx w this) = Some h ->
            Transaction.fire h (Transaction.end_ this w) = Transaction.end_ this w).
  { intros w0 Hh0. unfold Transaction.fire.
    assert (Ht : timers (Transaction.end_ this w0) !! h = Some None
                 ∨ timers (Transaction.end_ this w0) !! h = None).
    { rewrite end_world, Hh0. simpl.
      destruct (decide (h < length (timers w0))) as [Hlt|Hge].
      - left. by apply list_lookup_insert_eq.
      - right. apply lookup_ge_None_2. rewrite length_insert. lia. }
    by destruct Ht as [-> | ->]. }
  split; [by apply Hend|].
  rewrite rollback_unfold. cbn [fst]. apply Hend.
  set (w1 := fold_left _ _ w).
  assert (Hc : same_control w w1).
  { subst w1. apply same_control_fold. intros; apply call_control. }
  pose proof (same_control_tx _ _ this Hc) as Htx.
  destruct (decide (this < length (txs w1))) as [Hlt|Hge].
  - rewrite tx_set_tx_eq by done. by rewrite Htx.
  - apply Nat.nlt_ge in Hge. rewrite set_tx_dangling by done. by rewrite Htx.
Qed.

(** X13.  The timeout does not take the rollback away: after the timer
    fired, the log of the transaction is as it was, and [rollback()] does to
    the records and collections what it would have done before. *)
Theorem rollback_after_timeout
    (this : tref) (h : timer) (delay : Z) (w : World) :
  timers w !! h = Some (Some (this, delay)) ->
  let wt := Transaction.fire h w in
  TX._rollbackFns (tx wt this) = TX._rollbackFns (tx w this)
  ∧ same_data (Transaction.rollback this w).1 (Transaction.rollback this wt).1.
Proof.
  intros Hh wt. subst wt. unfold Transaction.fire. rewrite Hh.
  set (w1 := set_timers (<[h := None]> (timers w)) w).
  set (w2 := Transaction.end_ this w1).
  set (w3 := set_console _ w2).
  assert (Hx : tx w3 this = ended (tx w this)).
  { change (tx w3 this) with (tx w2 this). subst w2. by rewrite tx_after_end. }
  assert (Hd : same_data w w3).
  { subst w3 w2. rewrite end_world. by repeat split. }
  split; [by rewrite Hx|].
  eapply same_data_trans; [apply same_data_sym, rollback_data|].
  eapply same_data_trans; [|apply rollback_data].
  rewrite Hx. simpl. by apply calls_same_data.
Qed.

(** X14.  An inactive transaction is a plain pass-through: [save],
    [delete] and [update], and [deleteById] of an id that has a record, do
    what the wrapped collection does, return what it returns, and log
    nothing. *)
Theorem inactive_passthrough (this : tref) (w : World) :
  TX._begin (tx w this) = false ->
  let c := TX.collection (tx w this) in
  (forall items, Transaction.save this items w = MemoryCollection.save c items w)
  ∧ (forall cond, Transaction.delete this cond w = MemoryCollection.delete c cond w)
  ∧ (forall items, Transaction.update this items w = MemoryCollection.update c items w)
  ∧ (forall id data,
       MemoryCollection.getById c id w = Some data ->
       Transaction.deleteById this id w = MemoryCollection.deleteById c id w).
Proof.
  intros Hb c. split_and!.
  - intros items. unfold Transaction.save, Transaction.logging. fold c.
    change (MemoryCollection.save c items w)
      with ((MemoryCollection.save c items w).1, items).
    cbv beta iota.
    rewrite (same_control_tx _ _ this (save_control c items w)), Hb.
    by rewrite andb_false_r.
  - intros cond. unfold Transaction.delete, Transaction.logging. fold c.
    change (MemoryCollection.delete c cond w)
      with ((MemoryCollection.delete c cond w).1, MemoryCollection.search c cond w).
    cbv beta iota.
    rewrite (same_control_tx _ _ this (delete_control c cond w)), Hb.
    by rewrite andb_false_r.
  - intros items. unfold Transaction.update, Transaction.logging. fold c.
    pose proof (same_control_tx _ _ this (update_control c items w)) as Htx.
    destruct (MemoryCollection.update c items w) as [w1 [e|[]]]; [done|].
    simpl in Htx. rewrite Htx, Hb. by rewrite andb_false_r.
  - intros id data Hget. unfold Transaction.deleteById. fold c.
    by rewrite Hget, Hb.
Qed.

(** What [Transaction.get] found that is no transaction is found again
    after [collection] was assigned on it. *)
Lemma lookup_stray_stable id r c w :
  Transaction.lookup id w = Some r -> (forall t, r ≠ ATransaction t) ->
  Transaction.lookup id (Transaction.assign_collection r c w) = Some r
  ∧ Transaction.assign_collection r c w
    = set_strays (JsMap.set r c (strays w)) w.
Proof.
  intros Hl Hr.
  assert (Ha : Transaction.assign_collection r c w
               = set_strays (JsMap.set r c (strays w)) w).
  { destruct r as [t| |]; [by destruct (Hr t) | done | done]. }
  split; [|exact Ha]. rewrite Ha. revert Hl. unfold Transaction.lookup.
  change (registry (set_strays _ w)) with (registry w).
  destruct (registry w !! id) as [t|]; [done|].
  case_bool_decide; [done|]. case_bool_decide; [|done].
  change (strays (set_strays ?st w)) with st.
  destruct (JsMap.get (ABuiltin "__proto__") (strays w)) as [c0|] eqn:Hg; [|done].
  intros [= <-]. by rewrite get_set_ne, Hg.
Qed.

(** X15.  [Transaction.get] is stable: a second [get] under the same id
    returns the instance the first one returned and makes no new one; the
    instance then points at the collection of the second call and its log
    is the one it had.  What the first call returned when it is not a
    transaction (an inherited member of [map]) is returned again as well,
    with [collection] assigned on it, and no transaction is made. *)
Theorem get_twice_same_instance (id : string) (c1 c2 : cref) (w : World) :
  (forall t, registry w !! id = Some t -> t < length (txs w)) ->
  let r1 := Transaction.get id c1 w in
  let r2 := Transaction.get id c2 r1.1 in
  r2.2 = r1.2
  ∧ length (txs r2.1) = length (txs r1.1)
  ∧ (forall t, r1.2 = ATransaction t ->
       TX.collection (tx r2.1 t) = c2
       ∧ TX._rollbackFns (tx r2.1 t) = TX._rollbackFns (tx r1.1 t)
       ∧ TX._begin (tx r2.1 t) = TX._begin (tx r1.1 t))
  ∧ ((forall t, r1.2 ≠ ATransaction t) ->
       JsMap.get r1.2 (strays r2.1) = Some c2 ∧ txs r2.1 = txs w).
Proof.
  intros Hwf r1 r2.
  assert (H1 : (exists t, r1.2 = ATransaction t
                  ∧ registry r1.1 !! id = Some t ∧ t < length (txs r1.1))
               ∨ ((forall t, r1.2 ≠ ATransaction t)
                  ∧ Transaction.lookup id w = Some r1.2
                  ∧ r1.1 = Transaction.assign_collection r1.2 c1 w)).
  { subst r1. destruct (Transaction.lookup id w) as [r|] eqn:Hl.
    - rewrite (get_found _ _ _ _ Hl). cbn [fst snd].
      destruct r as [t|n|c].
      + left. exists t. apply lookup_transaction in Hl.
        split; [done|]. simpl. rewrite length_insert. split; [done | by apply Hwf].
      + right. by split_and!.
      + right. by split_and!.
    - left. rewrite (get_new _ _ _ Hl). cbn [fst snd]. eexists. split; [done|].
      simpl. rewrite lookup_insert_eq, length_app. simpl. split; [done | lia]. }
  destruct H1 as [(t & Ht & Hreg1 & Hlt1) | (Hr & Hl & Hw1)].
  - subst r2. rewrite (get_registered _ _ _ _ Hreg1), Ht. cbn [fst snd].
    split_and!; try done.
    + simpl. by rewrite length_insert.
    + intros t' [= <-]. by rewrite tx_set_tx_eq by done.
    + intros Hno. by destruct (Hno t).
  - destruct (lookup_stray_stable id r1.2 c1 w Hl Hr) as (Hl2 & Ha).
    subst r2. rewrite Hw1, (get_found _ _ _ _ Hl2). cbn [fst snd].
    destruct (lookup_stray_stable id r1.2 c2 _ Hl2 Hr) as (_ & Ha2).
    rewrite Ha2, Ha.
    split_and!; try done.
    + intros t Ht. by destruct (Hr t).
    + intros _. split; [|done]. cbn [strays set_strays]. apply get_set_eq.
Qed.

(** X16.  The registry is keyed by id alone and [end()] deletes the entry
    under the id of the transaction it ends, whoever is registered there:
    ending one of two transactions with the same id takes the other out of
    the registry, although the other stays as it is. *)
Theorem end_unregisters_namesake (this other : tref) (w : World) :
  registry w !! TX.id (tx w this) = Some other ->
  other ≠ this ->
  let w' := Transaction.end_ this w in
  registry w' !! TX.id (tx w this) = None
  ∧ tx w' other = tx w other.
Proof.
  intros Hreg Hne w'. subst w'. rewrite end_world. split.
  - simpl. apply lookup_delete_eq.
  - unfold tx. simpl. by rewrite list_lookup_insert_ne.
Qed.

Lemma filter_none {A} (f : A -> bool) (l : list A) :
  (forall x, f x = false) -> List.filter f l = [].
Proof.
  intros H. induction l as [|x l IH]; [done|]. simpl. by rewrite H.
Qed.

(** X17.  Calls that touch no record log nothing and change nothing:
    [save()] and [update()] without items, and [delete] with a condition no
    record meets. *)
Theorem empty_calls_change_nothing (this : tref) (w : World) :
  Transaction.save this [] w = (w, [])
  ∧ Transaction.update this [] w = (w, inr ())
  ∧ (forall cond,
       MemoryCollection.search (TX.collection (tx w this)) cond w = [] ->
       Transaction.delete this cond w = (w, [])).
Proof.
  split_and!.
  - done.
  - unfold Transaction.update. cbn [MemoryCollection.update map].
    unfold Transaction.logging, MemoryCollection.search.
    rewrite filter_none; [done|]. intros x. cbn [query].
    apply bool_decide_eq_false_2, not_elem_of_nil.
  - intros cond Hs. unfold Transaction.delete, MemoryCollection.delete.
    rewrite Hs. done.
Qed.

(** ** Select *)

(** The loop of [toArray] appends one result per source record. *)
Lemma toArray_loop this (array : list loc) w acc :
  exists rs,
    (fold_left
       (fun (acc : World * list Obj) item =>
          let '(w, resultArray) := acc in
          let '(w1, r) := Select._handleFromValue this item w in
          (w1, (resultArray ++ [r])%list))
       array (w, acc)).2 = acc ++ rs
    ∧ length rs = length array.
Proof.
  revert w acc. induction array as [|item array IH]; intros w acc.
  - exists []. by rewrite app_nil_r.
  - cbn [fold_left]. destruct (Select._handleFromValue this item w) as [w1 r].
    destruct (IH w1 (acc ++ [r])) as (rs & Hrs & Hlen).
    exists (r :: rs). rewrite Hrs, <- app_assoc. simpl. by rewrite Hlen.
Qed.

(** X18.  [toArray()] returns one object per record that [search] returns,
    and its first object is the object [toOne()] returns; both return
    nothing when no record meets the condition. *)
Theorem toOne_head_toArray (this : Select.t) (w : World) :
  length (Select.toArray this w).2
  = length (MemoryCollection.search (Select._from this) (Select._condition this) w)
  ∧ (Select.toOne this w).2 = head (Select.toArray this w).2.
Proof.
  unfold Select.toArray, Select.toOne. rewrite searchOne_head_search_aux.
  set (array := MemoryCollection.search _ _ w).
  split.
  - destruct (toArray_loop this array w []) as (rs & -> & Hlen). done.
  - destruct array as [|item array]; [done|].
    cbn [head fold_left].
    destruct (Select._handleFromValue this item w) as [w1 r].
    destruct (toArray_loop this array w1 ([] ++ [r])) as (rs & -> & _). done.
Qed.

(** [Object.assign({}, o)] copies [o]. *)
Lemma Object_assign_app (a o : Obj) :
  NoDup (JsMap.keys (a ++ o)) -> Object_assign a o = a ++ o.
Proof.
  unfold Object_assign. revert a. induction o as [|[k v] o IH]; intros a Hnd.
  - by rewrite app_nil_r.
  - cbn [fold_left fst snd].
    assert (Hk : k ∉ JsMap.keys a).
    { unfold JsMap.keys in *. rewrite fmap_app in Hnd.
      apply NoDup_app in Hnd as (_ & Hd & _). intros Hin.
      apply (Hd k Hin). simpl. apply list_elem_of_here. }
    rewrite set_absent by done. rewrite IH; rewrite <- app_assoc; done.
Qed.

Lemma NoDup_keys_asObject (it : Item) :
  NoDup (JsMap.keys (fields it)) -> NoDup (JsMap.keys (asObject it)).
Proof.
  intros Hnd. unfold asObject. destruct (_id it); [|done].
  by apply NoDup_keys_set.
Qed.

(** X19.  A builder fresh from [Select.from], with or without [where],
    copies: [toArray()] returns the matching records as plain objects, in
    the order of [search], [toOne()] the first of them, and the world is as
    it was. *)
Theorem from_where_copies (c : cref) (cond : QueryCondition) (w : World) :
  (forall l, l ∈ MemoryCollection.search c cond w ->
     NoDup (JsMap.keys (fields (obj w l)))) ->
  Select.toArray (Select.where_ (Select.from c) cond) w
  = (w, map (fun l => asObject (obj w l)) (MemoryCollection.search c cond w))
  ∧ Select.toOne (Select.where_ (Select.from c) cond) w
    = (w, (fun l => asObject (obj w l)) <$> MemoryCollection.searchOne c cond w).
Proof.
  intros Hnd.
  assert (Hh : forall l, l ∈ MemoryCollection.search c cond w ->
            Select._handleFromValue (Select.where_ (Select.from c) cond) l w
            = (w, asObject (obj w l))).
  { intros l Hl. unfold Select._handleFromValue, Select.exposed. simpl.
    rewrite decide_True by done. simpl.
    rewrite (Object_assign_app []); [done|]. simpl.
    by apply NoDup_keys_asObject, Hnd. }
  split.
  - unfold Select.toArray. simpl.
    assert (Hgen : forall (ls : list loc) acc,
      (forall l, l ∈ ls ->
         Select._handleFromValue (Select.where_ (Select.from c) cond) l w
         = (w, asObject (obj w l))) ->
      fold_left
        (fun (acc : World * list Obj) item =>
           let '(w, resultArray) := acc in
           let '(w1, r) :=
             Select._handleFromValue (Select.where_ (Select.from c) cond) item w in
           (w1, (resultArray ++ [r])%list))
        ls (w, acc)
      = (w, acc ++ map (fun l => asObject (obj w l)) ls)).
    { induction ls as [|item ls IH]; intros acc Hls.
      - by rewrite app_nil_r.
      - cbn [fold_left map]. rewrite Hls by apply list_elem_of_here.
        rewrite IH; [by rewrite <- app_assoc|].
        intros l Hl. by apply Hls, list_elem_of_further. }
    by apply (Hgen _ []).
  - unfold Select.toOne.
    change (Select._from (Select.where_ (Select.from c) cond)) with c.
    change (Select._condition (Select.where_ (Select.from c) cond)) with cond.
    destruct (MemoryCollection.searchOne c cond w) as [l|] eqn:Hs; [|done].
    rewrite Hh; [done|].
    rewrite searchOne_head_search_aux in Hs.
    destruct (MemoryCollection.search c cond w) as [|x xs]; [done|].
    injection Hs as ->. apply list_elem_of_here.
Qed.

(** X20.  [join] sets the projection of the joined collection to the
    identity, so a projection given with [expose] holds only when [expose]
    comes after [join]; joining the source collection itself resets the
    projection of the source.  Projections of other collections are not
    affected. *)
Theorem join_resets_projection
    (this : Select.t) (c : cref) (cb : Select.JoinCB) (f : Select.ExposeCB)
    (value : Select.Fetched) :
  Select.exposed (Select.join (Select.expose this c f) c cb) c value
    = Select.identity value
  ∧ Select.exposed (Select.expose (Select.join this c cb) c f) c value = f value
  ∧ Select.exposed (Select.join (Select.from c) c cb) c value = Select.identity value
  ∧ (forall c', c ≠ c' ->
       Select.exposed (Select.join this c cb) c' value = Select.exposed this c' value).
Proof.
  unfold Select.exposed, Select.join, Select.expose, Select.from. simpl.
  rewrite !get_set_eq. split_and!; try done.
  - rewrite decide_True by done. simpl. by rewrite decide_True.
  - intros c' Hne. by rewrite get_set_ne.
Qed.

(** ** The further properties at work on the scenarios *)

Lemma two_well_keyed : well_keyed 0 Stored.two.
Proof.
  change (well_keyed 0 Stored.two) with
    (keyed 0 Stored.two
     ∧ NoDup (JsMap.keys [("1", 0); ("2", 1)])
     ∧ "" ∉ JsMap.keys [("1", 0); ("2", 1)]).
  split_and!.
  - intros k l. change (MC._map (coll Stored.two 0)) with [("1", 0); ("2", 1)].
    simpl. destruct (decide (k = "1")) as [->|]; [by intros [= <-]|].
    destruct (decide (k = "2")) as [->|]; [by intros [= <-]|]. done.
  - apply (bool_decide_unpack _). by vm_compute.
  - apply (bool_decide_unpack _). by vm_compute.
Qed.

Lemma patches_keyed : keyed 0 Stored.patches.
Proof.
  intros k l. change (MC._map (coll Stored.patches 0)) with [("1", 0); ("2", 1)].
  simpl. destruct (decide (k = "1")) as [->|]; [by intros [= <-]|].
  destruct (decide (k = "2")) as [->|]; [by intros [= <-]|]. done.
Qed.

(** [delete({ name: "John" })] on John and Jane. *)
Lemma delete_removes_matches_witness :
  0 < length (colls Stored.two)
  ∧ keyed 0 Stored.two
  ∧ NoDup (JsMap.keys (MC._map (coll Stored.two 0)))
  ∧ (MemoryCollection.delete 0 (Scenario.hasName "John") Stored.two).2 = [0]
  ∧ MC._map (coll (MemoryCollection.delete 0 (Scenario.hasName "John") Stored.two).1 0)
    = [("2", 1)].
Proof.
  assert (H1 : 0 < length (colls Stored.two)) by (vm_compute; lia).
  pose proof two_well_keyed as (H2 & H3 & _).
  destruct (delete_removes_matches 0 (Scenario.hasName "John") Stored.two H1 H2 H3)
    as (Hr & Hm & _).
  split_and!; [done | done | done | |].
  - rewrite Hr. vm_compute. reflexivity.
  - rewrite Hm. vm_compute. reflexivity.
Defined.

(** [deleteById("1")] on John and Jane. *)
Lemma deleteById_existing_witness :
  0 < length (colls Stored.two)
  ∧ NoDup (JsMap.keys (MC._map (coll Stored.two 0)))
  ∧ MemoryCollection.getById 0 "1" Stored.two = Some 0
  ∧ (MemoryCollection.deleteById 0 "1" Stored.two).2 = true
  ∧ MemoryCollection.getById 0 "1" (MemoryCollection.deleteById 0 "1" Stored.two).1
    = None.
Proof.
  assert (H1 : 0 < length (colls Stored.two)) by (vm_compute; lia).
  pose proof two_well_keyed as (_ & H2 & _).
  assert (H3 : MemoryCollection.getById 0 "1" Stored.two = Some 0)
    by (vm_compute; reflexivity).
  destruct (deleteById_existing 0 "1" 0 Stored.two H1 H2 H3) as (Hr & Hg & _).
  by split_and!.
Defined.

(** An update of John with the patch for "1": Jane is not touched. *)
Lemma update_in_place_witness :
  keyed 0 Stored.patches
  ∧ colls (MemoryCollection.update 0 [2] Stored.patches).1 = colls Stored.patches
  ∧ obj (MemoryCollection.update 0 [2] Stored.patches).1 1 = Scenario.jane
  ∧ keyed 0 (MemoryCollection.update 0 [2] Stored.patches).1.
Proof.
  pose proof patches_keyed as Hk.
  destruct (update_in_place 0 [2] Stored.patches) as (Hc & _ & H).
  destruct (H Hk) as (_ & Hoth & Hk').
  split_and!; [done | done | | done].
  rewrite Hoth; [vm_compute; reflexivity|].
  intros (item & k & Hin & Hid & Hget).
  apply list_elem_of_singleton in Hin as ->.
  vm_compute in Hid. injection Hid as <-.
  vm_compute in Hget. discriminate.
Defined.

(** An update with the patch for "1", then the patch for "9": John is
    changed, and the error comes. *)
Lemma update_keeps_merges_before_failure_witness :
  MemoryCollection.update 0 [2] Stored.patches
    = ((MemoryCollection.update 0 [2] Stored.patches).1, inr ())
  ∧ missing 0 (MemoryCollection.update 0 [2] Stored.patches).1 3
  ∧ MemoryCollection.update 0 ([2] ++ 3 :: []) Stored.patches
    = ((MemoryCollection.update 0 [2] Stored.patches).1, inl (NotFound (Some "9")))
  ∧ obj (MemoryCollection.update 0 [2] Stored.patches).1 0 = Scenario.johnny.
Proof.
  assert (H1 : MemoryCollection.update 0 [2] Stored.patches
               = ((MemoryCollection.update 0 [2] Stored.patches).1, inr ()))
    by (vm_compute; reflexivity).
  assert (H2 : missing 0 (MemoryCollection.update 0 [2] Stored.patches).1 3)
    by (vm_compute; reflexivity).
  split_and!; [done | done | | vm_compute; reflexivity].
  exact (update_keeps_merges_before_failure 0 [2] 3 [] Stored.patches _ H1 H2).
Defined.

(** The invariant on John and Jane, after each of the four operations. *)
Lemma well_keyed_preserved_witness :
  0 < length (colls Stored.two)
  ∧ well_keyed 0 Stored.two
  ∧ well_keyed 0 (MemoryCollection.save 0 [0] Stored.two).1
  ∧ well_keyed 0 (MemoryCollection.delete 0 (Scenario.hasName "John") Stored.two).1
  ∧ well_keyed 0 (MemoryCollection.deleteById 0 "1" Stored.two).1
  ∧ well_keyed 0 (MemoryCollection.update 0 [0] Stored.two).1.
Proof.
  assert (H1 : 0 < length (colls Stored.two)) by (vm_compute; lia).
  destruct (well_keyed_preserved 0 Stored.two H1 two_well_keyed)
    as (Hs & Hd & Hi & Hu).
  split_and!; [done | apply two_well_keyed | | apply Hd | apply Hi | apply Hu].
  apply Hs.
  - intros item Hin. apply list_elem_of_singleton in Hin as ->. vm_compute. lia.
  - intros n _. discriminate.
Defined.

(** The test "rollback after delete". *)
Lemma delete_rollback_restores_witness :
  0 < length (txs Stored.two)
  ∧ TX._begin (tx Stored.two 0) = true
  ∧ TX._rollbackFns (tx Stored.two 0) = []
  ∧ well_keyed (TX.collection (tx Stored.two 0)) Stored.two
  ∧ (Transaction.delete 0 (Scenario.hasName "John") Stored.two).2 = [0]
  ∧ (forall id,
       MemoryCollection.getById 0 id
         (Transaction.rollback 0
            (Transaction.delete 0 (Scenario.hasName "John") Stored.two).1).1
       = MemoryCollection.getById 0 id Stored.two).
Proof.
  assert (H1 : 0 < length (txs Stored.two)) by (vm_compute; lia).
  assert (H2 : TX.collection (tx Stored.two 0) < length (colls Stored.two))
    by (vm_compute; lia).
  assert (H3 : TX._begin (tx Stored.two 0) = true) by reflexivity.
  assert (H4 : TX._rollbackFns (tx Stored.two 0) = []) by reflexivity.
  pose proof two_well_keyed as H5.
  destruct (delete_rollback_restores 0 (Scenario.hasName "John") Stored.two
              H1 H2 H3 H4 H5) as (Hr & _ & _ & Hg & _).
  split_and!; [done | done | done | done | | exact Hg].
  rewrite Hr. vm_compute. reflexivity.
Defined.

(** [transaction.deleteById("1")] on John and Jane, rolled back. *)
Lemma deleteById_rollback_restores_witness :
  MemoryCollection.getById (TX.collection (tx Stored.two 0)) "1" Stored.two = Some 0
  ∧ (Transaction.deleteById 0 "1" Stored.two).2 = true
  ∧ MemoryCollection.getById 0 "1" (Transaction.deleteById 0 "1" Stored.two).1 = None
  ∧ (forall id,
       MemoryCollection.getById 0 id
         (Transaction.rollback 0 (Transaction.deleteById 0 "1" Stored.two).1).1
       = MemoryCollection.getById 0 id Stored.two).
Proof.
  assert (H1 : 0 < length (txs Stored.two)) by (vm_compute; lia).
  assert (H2 : TX.collection (tx Stored.two 0) < length (colls Stored.two))
    by (vm_compute; lia).
  assert (H3 : TX._begin (tx Stored.two 0) = true) by reflexivity.
  assert (H4 : TX._rollbackFns (tx Stored.two 0) = []) by reflexivity.
  assert (H6 : MemoryCollection.getById (TX.collection (tx Stored.two 0)) "1"
                 Stored.two = Some 0) by (vm_compute; reflexivity).
  destruct (deleteById_rollback_restores 0 "1" 0 Stored.two
              H1 H2 H3 H4 two_well_keyed H6) as (Hr & Hn & _ & Hg & _).
  by split_and!.
Defined.

(** [transaction.begin()] right after the constructor, as the tests do. *)
Lemma begin_idempotent_witness :
  0 < length (txs Scenario.w0)
  ∧ Transaction.begin 0 (Transaction.begin 0 Scenario.w0)
    = Transaction.begin 0 Scenario.w0.
Proof.
  assert (H : 0 < length (txs Scenario.w0)) by (vm_compute; lia).
  split; [done|]. exact (begin_idempotent 0 Scenario.w0 H).
Defined.

(** The transaction of [beforeEach], ended and begun again. *)
Lemma begin_after_end_unregistered_witness :
  0 < length (txs Scenario.w0)
  ∧ TX._begin (tx (Transaction.begin 0 (Transaction.end_ 0 Scenario.w0)) 0) = true
  ∧ registry (Transaction.begin 0 (Transaction.end_ 0 Scenario.w0))
      !! TX.id (tx Scenario.w0 0) = None.
Proof.
  assert (H : 0 < length (txs Scenario.w0)) by (vm_compute; lia).
  destruct (begin_after_end_unregistered 0 0 Scenario.w0 H) as (Hb & _ & _ & _ & Hr & _).
  by split_and!.
Defined.

(** The timer of the transaction of [beforeEach], after [end()]. *)
Lemma cleared_timer_is_inert_witness :
  TX._timeoutHandler (tx Scenario.w0 0) = Some 0
  ∧ Transaction.fire 0 (Transaction.end_ 0 Scenario.w0) = Transaction.end_ 0 Scenario.w0.
Proof.
  assert (H : TX._timeoutHandler (tx Scenario.w0 0) = Some 0) by reflexivity.
  split; [done|]. exact (proj1 (cleared_timer_is_inert 0 0 Scenario.w0 H)).
Defined.

(** A save is logged, the timer fires, and the rollback still deletes. *)
Lemma rollback_after_timeout_witness :
  timers Rollback.saved_over !! 0 = Some (Some (0, 30000%Z))
  ∧ TX._rollbackFns (tx (Transaction.fire 0 Rollback.saved_over) 0)
    = [RbDeleteIdsOf 0 [1]]
  ∧ colls (Transaction.rollback 0 (Transaction.fire 0 Rollback.saved_over)).1
    = colls (Transaction.rollback 0 Rollback.saved_over).1.
Proof.
  assert (H : timers Rollback.saved_over !! 0 = Some (Some (0, 30000%Z)))
    by (vm_compute; reflexivity).
  destruct (rollback_after_timeout 0 0 30000%Z Rollback.saved_over H)
    as (Hl & _ & Hc & _).
  split_and!; [done | | done].
  rewrite Hl. vm_compute. reflexivity.
Defined.

(** The transaction of [beforeEach] after [end()]. *)
Lemma inactive_passthrough_witness :
  TX._begin (tx Stored.ended_tx 0) = false
  ∧ Transaction.save 0 [0] Stored.ended_tx
    = MemoryCollection.save (TX.collection (tx Stored.ended_tx 0)) [0] Stored.ended_tx
  ∧ (MemoryCollection.getById (TX.collection (tx Stored.ended_tx 0)) "1"
       Stored.ended_tx = Some 0
     ∧ Transaction.deleteById 0 "1" Stored.ended_tx
       = MemoryCollection.deleteById (TX.collection (tx Stored.ended_tx 0)) "1"
           Stored.ended_tx).
Proof.
  assert (H : TX._begin (tx Stored.ended_tx 0) = false) by (vm_compute; reflexivity).
  assert (G : MemoryCollection.getById (TX.collection (tx Stored.ended_tx 0)) "1"
                Stored.ended_tx = Some 0) by (vm_compute; reflexivity).
  destruct (inactive_passthrough 0 Stored.ended_tx H) as (Hs & _ & _ & Hd).
  split_and!; [done | apply Hs | done | exact (Hd "1" 0 G)].
Defined.

(** [Transaction.get("t1", b)] after [Transaction.get("t1", a)] and a
    save. *)
Lemma get_twice_same_instance_witness :
  (forall t, registry Registry.t1_on_a !! "t1" = Some t ->
             t < length (txs Registry.t1_on_a))
  ∧ (Transaction.get "t1" 1 (Transaction.get "t1" 0 Registry.t1_on_a).1).2
    = (Transaction.get "t1" 0 Registry.t1_on_a).2.
Proof.
  assert (H : forall t, registry Registry.t1_on_a !! "t1" = Some t ->
                        t < length (txs Registry.t1_on_a)).
  { intros t Ht. change (length (txs Registry.t1_on_a)) with 2.
    assert (Hr : registry Registry.t1_on_a !! "t1" = Some 1)
      by (vm_compute; reflexivity).
    rewrite Hr in Ht. injection Ht as <-. lia. }
  split; [done|].
  exact (proj1 (get_twice_same_instance "t1" 0 1 Registry.t1_on_a H)).
Defined.

(** The transaction of [beforeEach] has the id "1" and is not registered;
    [Transaction.get("1", c)] registers another one; ending the first takes
    the second out of the registry. *)
Lemma end_unregisters_namesake_witness :
  registry Stored.namesakes !! TX.id (tx Stored.namesakes 0) = Some 1
  ∧ 1 ≠ 0
  ∧ registry (Transaction.end_ 0 Stored.namesakes) !! TX.id (tx Stored.namesakes 0)
    = None
  ∧ TX._begin (tx (Transaction.end_ 0 Stored.namesakes) 1) = true.
Proof.
  assert (H1 : registry Stored.namesakes !! TX.id (tx Stored.namesakes 0) = Some 1)
    by (vm_compute; reflexivity).
  assert (H2 : 1 ≠ 0) by lia.
  destruct (end_unregisters_namesake 0 1 Stored.namesakes H1 H2) as (Hr & Hx).
  split_and!; [done | done | done |].
  rewrite Hx. reflexivity.
Defined.

(** [delete] on the empty collection of [beforeEach]. *)
Lemma empty_calls_change_nothing_witness :
  MemoryCollection.search (TX.collection (tx Scenario.w0 0)) QAll Scenario.w0 = []
  ∧ Transaction.delete 0 QAll Scenario.w0 = (Scenario.w0, []).
Proof.
  assert (H : MemoryCollection.search (TX.collection (tx Scenario.w0 0)) QAll
                Scenario.w0 = []) by (vm_compute; reflexivity).
  split; [done|].
  destruct (empty_calls_change_nothing 0 Scenario.w0) as (_ & _ & Hd).
  exact (Hd QAll H).
Defined.

(** "should return an array of results correctly": the two users. *)
Lemma from_where_copies_witness :
  (forall l, l ∈ MemoryCollection.search 0 QAll Blog.blog ->
     NoDup (JsMap.keys (fields (obj Blog.blog l))))
  ∧ (Select.toArray (Select.where_ (Select.from 0) QAll) Blog.blog).2
    = [asObject Blog.alice1; asObject Blog.bob2].
Proof.
  assert (H : forall l, l ∈ MemoryCollection.search 0 QAll Blog.blog ->
                NoDup (JsMap.keys (fields (obj Blog.blog l)))).
  { intros l Hl. change (MemoryCollection.search 0 QAll Blog.blog) with [0; 1] in Hl.
    apply elem_of_cons in Hl as [->|Hl].
    - apply (bool_decide_unpack _). by vm_compute.
    - apply list_elem_of_singleton in Hl as ->.
      apply (bool_decide_unpack _). by vm_compute. }
  split; [done|].
  rewrite (proj1 (from_where_copies 0 QAll Blog.blog H)).
  vm_compute. reflexivity.
Defined.

(** [expose(posts, f)] before and after [join(posts, cb)]. *)
Lemma join_resets_projection_witness :
  1 ≠ 0
  ∧ Select.exposed
      (Select.join (Select.expose (Select.from 0) 1 Blog.exposePosts) 1 Blog.postsOf)
      1 (Select.One Blog.post1)
    = Select.identity (Select.One Blog.post1)
  ∧ Select.exposed (Select.join (Select.from 0) 1 Blog.postsOf) 0
      (Select.One Blog.alice1)
    = Select.exposed (Select.from 0) 0 (Select.One Blog.alice1).
Proof.
  assert (H : 1 ≠ 0) by lia.
  destruct (join_resets_projection (Select.from 0) 1 Blog.postsOf Blog.exposePosts
              (Select.One Blog.post1)) as (H1 & _).
  destruct (join_resets_projection (Select.from 0) 1 Blog.postsOf Blog.exposePosts
              (Select.One Blog.alice1)) as (_ & _ & _ & H4).
  split_and!; [done | done | exact (H4 0 H)].
Defined.
